(** * vibe-transcriber: segment splitting, dialogue merging and time formatting

    A shallow embedding of [transcriber/whisper_utils.py] and of
    [transcriber/lrc_writer.py].

    Conventions of the embedding.
    - A Python [float] holding a time, a probability or a log-probability
      is a finite double, read as the rational number it denotes ([Q]).
      Comparisons of finite doubles agree with the comparisons of the
      rationals they denote, and no double lies between the decimal
      constants [0.40], [-1.2] and their nearest doubles, so a test of a
      double against one of these constants agrees as well.
    - Arithmetic on floats is the arithmetic of doubles: the result of an
      addition, subtraction, multiplication or division is its exact value
      rounded to the nearest double, a tie going to the even significand
      ([fl]).  Results are taken to stay in the range of the finite
      doubles; overflow, infinities, NaN and the sign of zero are not
      modelled.
    - A Python [str] is a [string]; a character is read as a code point in
      U+0000..U+00FF, with the whitespace and word classes Python assigns
      to those code points.
    - [Optional[T]] is [option T]; dataclasses are records and
      [dataclasses.replace] is a record update. *)

From Stdlib Require Import QArith Qround Qabs ZArith String Ascii List Bool Lia.
From Stdlib Require Import DecimalString Sorting.Sorted Sorting.Permutation.
Import ListNotations.

Open Scope string_scope.
Open Scope Q_scope.

(** ** Python string primitives *)

Module PyStr.

(** [str.isspace] on one character, which is also the class [\s] of [re]
    on [str] patterns. *)
Definition isspace (c : ascii) : bool :=
  let n := N_of_ascii c in
  ((9 <=? n) && (n <=? 13) || (28 <=? n) && (n <=? 32)
   || (n =? 133) || (n =? 160))%N.

(** The class [\w] of [re] under [re.UNICODE]: alphanumeric or underscore. *)
Definition isword (c : ascii) : bool :=
  let n := N_of_ascii c in
  ((48 <=? n) && (n <=? 57) || (65 <=? n) && (n <=? 90)
   || (97 <=? n) && (n <=? 122) || (n =? 95)
   || (n =? 170) || (n =? 178) || (n =? 179) || (n =? 181)
   || (185 <=? n) && (n <=? 186) || (188 <=? n) && (n <=? 190)
   || (192 <=? n) && (n <=? 214) || (216 <=? n) && (n <=? 246)
   || (248 <=? n))%N.

(** [bool(s)]: a string is truthy when it is not empty. *)
Definition truthy (s : string) : bool :=
  match s with EmptyString => false | String _ _ => true end.

Fixpoint lstrip (s : string) : string :=
  match s with
  | EmptyString => EmptyString
  | String c s' => if isspace c then lstrip s' else s
  end.

Fixpoint rstrip (s : string) : string :=
  match s with
  | EmptyString => EmptyString
  | String c s' =>
      match rstrip s' with
      | EmptyString => if isspace c then EmptyString else String c EmptyString
      | r => String c r
      end
  end.

(** [s.strip()] *)
Definition strip (s : string) : string := rstrip (lstrip s).

(** [s.startswith(c)] and [s.endswith(c)] for a one-character [c]. *)
Definition startswith (c : ascii) (s : string) : bool :=
  match s with
  | String d _ => Ascii.eqb c d
  | EmptyString => false
  end.

Fixpoint endswith (c : ascii) (s : string) : bool :=
  match s with
  | EmptyString => false
  | String d EmptyString => Ascii.eqb c d
  | String _ s' => endswith c s'
  end.

Fixpoint drop_last (s : string) : string :=
  match s with
  | EmptyString => EmptyString
  | String _ EmptyString => EmptyString
  | String c s' => String c (drop_last s')
  end.

(** The slice [s[1:-1]]. *)
Definition slice_1_m1 (s : string) : string :=
  match s with
  | EmptyString => EmptyString
  | String _ s' => drop_last s'
  end.

(** ["".join(l)] *)
Definition join (l : list string) : string := String.concat "" l.

(** The longest prefix of [s] made of characters of the class [cls], and
    what follows it: what a greedy [cls*] consumes. *)
Fixpoint span (cls : ascii -> bool) (s : string) : string * string :=
  match s with
  | EmptyString => (EmptyString, EmptyString)
  | String c s' =>
      if cls c
      then let (p, r) := span cls s' in (String c p, r)
      else (EmptyString, s)
  end.

(** Whether some character of [s] satisfies [cls]. *)
Fixpoint existsb (cls : ascii -> bool) (s : string) : bool :=
  match s with
  | EmptyString => false
  | String c s' => cls c || existsb cls s'
  end.

End PyStr.

(** ** Data model *)

Record WordToken : Type := mkWordToken {
  w_start : Q;
  w_end : Q;
  word : string;
  probability : option Q
}.

Record TranscriptSegment : Type := mkTranscriptSegment {
  start : Q;
  end_ : Q;
  text : string;
  avg_logprob : option Q;
  no_speech_prob : option Q;
  speaker : option string;
  words : option (list WordToken)
}.

(** Strict comparison of two floats, [x < y]. *)
Definition Qltb (x y : Q) : bool := negb (Qle_bool y x).

(** ** Arithmetic of doubles *)

(** [int(x)] on a float: truncation towards zero. *)
Definition py_int (x : Q) : Z :=
  if Qltb x 0 then Qceiling x else Qfloor x.

(** [round(x)] on a float: the nearest integer, a tie going to the even
    one. *)
Definition py_round (x : Q) : Z :=
  let f := Qfloor x in
  match Qcompare (x - inject_Z f) (1 # 2) with
  | Lt => f
  | Gt => (f + 1)%Z
  | Eq => if Z.even f then f else (f + 1)%Z
  end.

(** The integer part of the base-2 logarithm of a positive rational. *)
Definition Qlog2 (a : Q) : Z :=
  let k := (Z.log2 (Qnum a) - Z.log2 (Zpos (Qden a)))%Z in
  if Qle_bool (2 ^ k) a then k else (k - 1)%Z.

(** The double nearest to [x], a tie going to the even significand: [x]
    is scaled by a power of two so that its magnitude has 53 binary digits
    before the point (fewer below the smallest normal number), rounded to
    an integer, and scaled back. *)
Definition fl (x : Q) : Q :=
  match Qnum x with
  | Z0 => 0
  | _ =>
      let a := Qabs x in
      let e := Z.max (Qlog2 a - 52) (-1074) in
      let m := py_round (a / 2 ^ e) in
      let r := inject_Z m * 2 ^ e in
      Qred (if Qltb x 0 then - r else r)
  end.

(** [a + b], [a - b], [a * b] and [a / b] on floats. *)
Definition fadd (a b : Q) : Q := fl (a + b).
Definition fsub (a b : Q) : Q := fl (a - b).
Definition fmul (a b : Q) : Q := fl (a * b).
Definition fdiv (a b : Q) : Q := fl (a / b).

(** [float(n)] for an integer [n], as when an [int] meets a [float] in an
    operation. *)
Definition float_of_int (n : Z) : Q := fl (inject_Z n).

(** The C function [fmod]: the exact remainder of [vx / wx], with the sign
    of [vx]. *)
Definition fmod (vx wx : Q) : Q := vx - wx * inject_Z (py_int (vx / wx)).

(** [vx // wx] on floats, as the interpreter computes it: the quotient of
    [vx - fmod(vx, wx)] by [wx], lowered by one when the remainder and the
    divisor differ in sign, then snapped to the nearest integral value. *)
Definition float_floordiv (vx wx : Q) : Q :=
  let md := fmod vx wx in
  let div := fdiv (fsub vx md) wx in
  let div :=
    if negb (Qeq_bool md 0) && xorb (Qltb wx 0) (Qltb md 0)
    then fsub div 1 else div in
  if negb (Qeq_bool div 0)
  then
    let floordiv := inject_Z (Qfloor div) in
    if Qltb (1 # 2) (fsub div floordiv) then fadd floordiv 1 else floordiv
  else 0.

(** ** Confidence classifier *)

(** The class [[\w\-]] of [_WORDLIKE]. *)
Definition wordlike_char (c : ascii) : bool :=
  PyStr.isword c || Ascii.eqb c "-".

(** A match of [[\w\-]+] anchored at the start of [s]: the greedy run of
    class characters, which must not be empty. *)
Definition _WORDLIKE_match (s : string) : option string :=
  match PyStr.span wordlike_char s with
  | (EmptyString, _) => None
  | (m, _) => Some m
  end.

(** [_WORDLIKE.search(s)]: the first position from which the pattern
    matches, tried from left to right. *)
Fixpoint _WORDLIKE_search (s : string) : option string :=
  match _WORDLIKE_match s with
  | Some m => Some m
  | None =>
      match s with
      | EmptyString => None
      | String _ s' => _WORDLIKE_search s'
      end
  end.

Definition _should_mark_indistinct
    (text : string) (avg_logprob avg_word_prob : option Q) : bool :=
  if negb (PyStr.truthy text)
     || match _WORDLIKE_search text with None => true | Some _ => false end
  then true
  else if match avg_word_prob with
          | Some p => Qltb p 0.40
          | None => false
          end
  then true
  else if match avg_logprob with
          | Some l => Qltb l (-1.2)
          | None => false
          end
  then true
  else false.

(** The replacement function [repl] of [_emphasize_bracketed], applied to
    the text of group 1 of a match. *)
Definition repl (group1 : string) : string :=
  let inner := PyStr.strip group1 in
  let inner :=
    if PyStr.startswith "[" inner && PyStr.endswith "]" inner
    then PyStr.strip (PyStr.slice_1_m1 inner) else inner in
  let inner :=
    if PyStr.startswith "(" inner && PyStr.endswith ")" inner
    then PyStr.strip (PyStr.slice_1_m1 inner) else inner in
  " *" ++ inner ++ "* ".

(** One alternative of group 1 of [_BRACKETED], after its opening
    delimiter [opn]: a greedy non-empty run of characters other than [cls],
    then [cls].  Returns the text of the group and what follows it. *)
Definition match_delimited (opn cls : ascii) (s : string)
  : option (string * string) :=
  match PyStr.span (fun c => negb (Ascii.eqb c cls)) s with
  | (EmptyString, _) => None
  | (inner, String _ rest) =>
      Some (String opn (inner ++ String cls EmptyString), rest)
  | (_, EmptyString) => None
  end.

(** A match of [_BRACKETED] anchored at the start of [s]: the text of
    group 1 and the number of characters the whole match consumes.  The
    leading [\s*] is greedy and the group cannot begin with whitespace, so
    the only way to match is after the whole run of leading whitespace. *)
Definition _BRACKETED_match (s : string) : option (string * nat) :=
  let (lead, s1) := PyStr.span PyStr.isspace s in
  match s1 with
  | EmptyString => None
  | String c s2 =>
      let alt :=
        if Ascii.eqb c "[" then match_delimited "[" "]" s2
        else if Ascii.eqb c "(" then match_delimited "(" ")" s2
        else None in
      match alt with
      | None => None
      | Some (g, s3) =>
          let (trail, _) := PyStr.span PyStr.isspace s3 in
          Some (g, (String.length lead + String.length g
                    + String.length trail)%nat)
      end
  end.

(** [_BRACKETED.sub(repl, text)], scanning from left to right; [skip]
    counts the characters of the last match that are still to be passed
    over. *)
Fixpoint _BRACKETED_sub (skip : nat) (s : string) : string :=
  match s with
  | EmptyString => EmptyString
  | String c s' =>
      match skip with
      | S k => _BRACKETED_sub k s'
      | O =>
          match _BRACKETED_match s with
          | Some (g, n) => repl g ++ _BRACKETED_sub (Nat.pred n) s'
          | None => String c (_BRACKETED_sub 0 s')
          end
      end
  end.

Definition _emphasize_bracketed (text : string) : string :=
  _BRACKETED_sub 0 text.

(** The text a segment is created with in [transcribe_file], from its
    stripped raw text and its confidence signals (the same three statements
    close both the word path and the fallback path of the loop). *)
Definition finalize
    (raw_text : string) (avg_logprob avg_word_prob : option Q) : string :=
  let text := _emphasize_bracketed raw_text in
  if _should_mark_indistinct raw_text avg_logprob avg_word_prob
  then (if PyStr.truthy text then "*" ++ text ++ "*" else "*indistinct*")
  else text.

(** ** Segment splitter *)

(** [replace(segment, end=e)] *)
Definition replace_end (s : TranscriptSegment) (e : Q) : TranscriptSegment :=
  mkTranscriptSegment (start s) e (text s) (avg_logprob s)
    (no_speech_prob s) (speaker s) (words s).

(** [replace(segment, start=b, text=t)] *)
Definition replace_start_text (s : TranscriptSegment) (b : Q) (t : string)
  : TranscriptSegment :=
  mkTranscriptSegment b (end_ s) t (avg_logprob s)
    (no_speech_prob s) (speaker s) (words s).

(** [replace(segment, end=e, text=t)] *)
Definition replace_end_text (s : TranscriptSegment) (e : Q) (t : string)
  : TranscriptSegment :=
  mkTranscriptSegment (start s) e t (avg_logprob s)
    (no_speech_prob s) (speaker s) (words s).

(** [replace(segment, speaker=sp)] *)
Definition replace_speaker (s : TranscriptSegment) (sp : string)
  : TranscriptSegment :=
  mkTranscriptSegment (start s) (end_ s) (text s) (avg_logprob s)
    (no_speech_prob s) (Some sp) (words s).

(** One iteration of the loop over [segment.words]: the state is the pair
    of lists [left_words], [right_words], each extended at its end. *)
Definition assign_word (boundary_time : Q)
    (acc : list WordToken * list WordToken) (w : WordToken)
  : list WordToken * list WordToken :=
  let (left_words, right_words) := acc in
  if Qle_bool (w_end w) boundary_time
  then ((left_words ++ [w])%list, right_words)
  else if Qle_bool boundary_time (w_start w)
  then (left_words, (right_words ++ [w])%list)
  else
    let mid := fdiv (fadd (w_start w) (w_end w)) 2 in
    if Qle_bool mid boundary_time
    then ((left_words
             ++ [mkWordToken (w_start w) boundary_time (word w)
                   (probability w)])%list,
          right_words)
    else (left_words,
          (right_words
             ++ [mkWordToken boundary_time (w_end w) (word w)
                   (probability w)])%list).

(** The whole loop, from two empty lists. *)
Definition partition_words (ws : list WordToken) (boundary_time : Q)
  : list WordToken * list WordToken :=
  fold_left (assign_word boundary_time) ws ([], []).

(** The text given to a part made of the words [ws]. *)
Definition part_text (ws : list WordToken) : string :=
  let t := PyStr.strip (PyStr.join (map word ws)) in
  if PyStr.truthy t then _emphasize_bracketed t else "*indistinct*".

Definition _split_segment_at_time
    (segment : TranscriptSegment) (boundary_time : Q)
  : list TranscriptSegment :=
  if Qle_bool boundary_time (start segment)
     || Qle_bool (end_ segment) boundary_time
  then [segment]
  else
    match words segment with
    | None | Some [] =>
        let left := replace_end segment boundary_time in
        let right := replace_start_text segment boundary_time "" in
        [left; right]
    | Some ws =>
        let (left_words, right_words) := partition_words ws boundary_time in
        let parts : list TranscriptSegment := [] in
        let parts :=
          match left_words with
          | [] => parts
          | _ =>
              (parts ++
               [mkTranscriptSegment (start segment) boundary_time
                  (part_text left_words) (avg_logprob segment)
                  (no_speech_prob segment) (speaker segment)
                  (Some left_words)])%list
          end in
        let parts :=
          match right_words with
          | [] => parts
          | _ =>
              (parts ++
               [mkTranscriptSegment boundary_time (end_ segment)
                  (part_text right_words) (avg_logprob segment)
                  (no_speech_prob segment) (speaker segment)
                  (Some right_words)])%list
          end in
        match parts with
        | [] =>
            (parts
               ++ [replace_end_text segment boundary_time "*indistinct*"])%list
        | _ => parts
        end
    end.

(** ** The built-in stable sort *)

Section PySort.
Context {A : Type} (lt : A -> A -> bool).

(** [x] comes from before every element of [l] in the input, so it stays
    in front of the elements it is not greater than. *)
Fixpoint insert_sorted (x : A) (l : list A) : list A :=
  match l with
  | [] => [x]
  | y :: l' => if lt y x then y :: insert_sorted x l' else x :: l
  end.

(** [sorted(l)] and [l.sort()]: a stable sort that compares with [<]
    only. *)
Fixpoint py_sorted (l : list A) : list A :=
  match l with
  | [] => []
  | x :: l' => insert_sorted x (py_sorted l')
  end.
End PySort.

(** ** Boundary-set applier *)

(** The inner loop over [stack] for one boundary [b]. *)
Definition split_stack (stack : list TranscriptSegment) (b : Q)
  : list TranscriptSegment :=
  flat_map (fun part => _split_segment_at_time part b) stack.

(** The loop over the boundaries for one segment. *)
Definition split_at_all (boundaries : list Q) (seg : TranscriptSegment)
  : list TranscriptSegment :=
  fold_left split_stack boundaries [seg].

Definition has_text (s : TranscriptSegment) : bool :=
  PyStr.truthy (PyStr.strip (text s)).

Definition _split_segments_at_boundaries
    (segments : list TranscriptSegment) (boundaries : list Q)
  : list TranscriptSegment :=
  match segments, boundaries with
  | [], _ => segments
  | _, [] => segments
  | _, _ =>
      let boundaries := py_sorted Qltb boundaries in
      let result := flat_map (split_at_all boundaries) segments in
      filter has_text result
  end.

(** ** Dialogue merger *)

(** The sort key [(s.start, s.end)]. *)
Definition sort_key (s : TranscriptSegment) : Q * Q := (start s, end_ s).

(** [a < b] on two such tuples: the first components that differ decide. *)
Definition key_lt (a b : Q * Q) : bool :=
  if Qeq_bool (fst a) (fst b) then Qltb (snd a) (snd b)
  else Qltb (fst a) (fst b).

Definition segment_lt (a b : TranscriptSegment) : bool :=
  key_lt (sort_key a) (sort_key b).

Definition merge_dialogue
    (left_segments : list TranscriptSegment) (left_speaker : string)
    (right_segments : list TranscriptSegment) (right_speaker : string)
  : list TranscriptSegment :=
  let left_list :=
    map (fun s => replace_speaker s left_speaker) left_segments in
  let right_list :=
    map (fun s => replace_speaker s right_speaker) right_segments in
  let left_boundaries := map start right_list in
  let right_boundaries := map start left_list in
  let left_list := _split_segments_at_boundaries left_list left_boundaries in
  let right_list := _split_segments_at_boundaries right_list right_boundaries in
  let merged := (left_list ++ right_list)%list in
  py_sorted segment_lt merged.

(** ** Time formatting *)

(** The format [{n:02d}]: decimal digits, padded with a zero on the left
    up to a width of two. *)
Definition fmt_02d (n : Z) : string :=
  let s := NilZero.string_of_int (Z.to_int n) in
  if (String.length s <? 2)%nat then "0" ++ s else s.

Definition _fmt_time (seconds : Q) : string :=
  let seconds := if Qltb seconds 0 then 0.0 else seconds in
  let minutes := py_int (float_floordiv seconds 60) in
  let secs := fsub seconds (float_of_int (minutes * 60)) in
  let centis :=
    py_round (fmul (fsub secs (float_of_int (py_int secs))) 100) in
  "[" ++ fmt_02d minutes ++ ":" ++ fmt_02d (py_int secs)
      ++ "." ++ fmt_02d centis ++ "]".

(** ** Recognition adapter *)

(** What [transcribe_file] reads of the recognizer's word and segment
    objects.  The recognizer always supplies these attributes, so the
    defaults of the [getattr] calls are not modelled; [model.transcribe]
    itself is external and its sequence of segments is the argument of
    [transcribe_file] below. *)
Record RecWord : Type := mkRecWord {
  rw_start : Q;
  rw_end : Q;
  rw_word : string;
  rw_probability : option Q
}.

Record RecSegment : Type := mkRecSegment {
  rs_start : Q;
  rs_end : Q;
  rs_text : string;
  rs_avg_logprob : option Q;
  rs_no_speech_prob : option Q;
  rs_words : option (list RecWord)
}.

Definition SPLIT_GAP_SECONDS : Q := 0.40.

(** The variables of the loop over the words of one recognizer segment:
    [segments], [current_words], [current_start] and [prev_end]. *)
Record FlushState : Type := mkFlushState {
  segments : list TranscriptSegment;
  current_words : list WordToken;
  current_start : option Q;
  prev_end : option Q
}.

(** The probabilities that are not [None], then their mean when there is
    one. *)
Definition word_probs (ws : list WordToken) : list Q :=
  flat_map
    (fun w => match probability w with Some p => [p] | None => [] end) ws.

(** [float(mean(l))] of [statistics]: the exact mean of the values,
    rounded once to a double. *)
Definition mean (l : list Q) : Q :=
  fl (fold_right Qplus 0 l / inject_Z (Z.of_nat (length l))).

Definition avg_word_prob_of (ws : list WordToken) : option Q :=
  match word_probs ws with
  | [] => None
  | probs => Some (mean probs)
  end.

Definition flush_from_words (seg : RecSegment) (st : FlushState)
  : FlushState :=
  match current_words st with
  | [] => st
  | w0 :: _ =>
      let start_ts :=
        match current_start st with
        | Some s => s
        | None => rs_start seg
        end in
      let end_ts := w_end (last (current_words st) w0) in
      let raw_text :=
        PyStr.strip (PyStr.join (map word (current_words st))) in
      let text :=
        finalize raw_text (rs_avg_logprob seg)
          (avg_word_prob_of (current_words st)) in
      mkFlushState
        (segments st
           ++ [mkTranscriptSegment start_ts end_ts text (rs_avg_logprob seg)
                 (rs_no_speech_prob seg) None (Some (current_words st))])%list
        [] (current_start st) (prev_end st)
  end.

(** The body of the loop over the words. *)
Definition word_step (seg : RecSegment) (st : FlushState) (w : RecWord)
  : FlushState :=
  let wstart := rw_start w in
  let wend := rw_end w in
  let st :=
    match prev_end st with
    | Some pe =>
        if Qle_bool SPLIT_GAP_SECONDS (fsub wstart pe)
        then
          let st := flush_from_words seg st in
          mkFlushState (segments st) (current_words st) (Some wstart)
            (prev_end st)
        else st
    | None => st
    end in
  let st :=
    match current_words st with
    | [] =>
        mkFlushState (segments st) (current_words st) (Some wstart)
          (prev_end st)
    | _ => st
    end in
  mkFlushState (segments st)
    (current_words st
       ++ [mkWordToken wstart wend (rw_word w) (rw_probability w)])%list
    (current_start st) (Some wend).

(** The body of the loop over the recognizer's segments: [acc] is the list
    [segments] so far. *)
Definition transcribe_segment (acc : list TranscriptSegment)
    (seg : RecSegment) : list TranscriptSegment :=
  match rs_words seg with
  | Some (w :: ws) =>
      segments
        (flush_from_words seg
           (fold_left (word_step seg) (w :: ws)
              (mkFlushState acc [] None None)))
  | _ =>
      let raw_text := PyStr.strip (rs_text seg) in
      let text := finalize raw_text (rs_avg_logprob seg) None in
      (acc
         ++ [mkTranscriptSegment (rs_start seg) (rs_end seg) text
               (rs_avg_logprob seg) (rs_no_speech_prob seg) None None])%list
  end.

Definition transcribe_file (seg_iter : list RecSegment)
  : list TranscriptSegment :=
  filter has_text (fold_left transcribe_segment seg_iter []).

(** ** Writer *)

(** [x or d] on an optional string: [d] when [x] is [None] or empty. *)
Definition str_or (x : option string) (d : string) : string :=
  match x with
  | Some s => if PyStr.truthy s then s else d
  | None => d
  end.

(** One body line of [write_lrc]. *)
Definition lrc_line (seg : TranscriptSegment) : string :=
  let ts := _fmt_time (start seg) in
  let speaker := str_or (speaker seg) "Speaker" in
  let text := PyStr.strip (text seg) in
  ts ++ " " ++ speaker ++ ": " ++ text.

(** The list [lines] that [write_lrc] builds. *)
Definition lrc_lines (segs : list TranscriptSegment)
    (title artists : option string) : list string :=
  let lines : list string := [] in
  let lines :=
    match title with
    | Some t =>
        if PyStr.truthy t then (lines ++ [("[ti:" ++ t ++ "]")%string])%list
        else lines
    | None => lines
    end in
  let lines :=
    match artists with
    | Some a =>
        if PyStr.truthy a then (lines ++ [("[ar:" ++ a ++ "]")%string])%list
        else lines
    | None => lines
    end in
  fold_left (fun lines seg => (lines ++ [lrc_line seg])%list) segs lines.

(** The text [write_lrc] writes to the output file. *)
Definition write_lrc (segs : list TranscriptSegment)
    (title artists : option string) : string :=
  String.concat (String "010" EmptyString) (lrc_lines segs title artists)
  ++ String "010" EmptyString.

(** * Vocabulary of the properties *)

(** The indistinct test as the specification words it. *)
Definition isIndistinct_spec
    (rawText : string) (avgLogprob avgWordProbability : option Q) : Prop :=
  rawText = ""
  \/ (forall c, In c (list_ascii_of_string rawText) -> wordlike_char c = false)
  \/ (exists p, avgWordProbability = Some p /\ p < 0.40)
  \/ (exists l, avgLogprob = Some l /\ l < -1.2).

(** What the specification asks of the result [out] of [finalize]. *)
Definition finalize_spec
    (rawText : string) (avgLogprob avgWordProbability : option Q)
    (out : string) : Prop :=
  let emphasized := _emphasize_bracketed rawText in
  (isIndistinct_spec rawText avgLogprob avgWordProbability ->
   (emphasized <> "" -> out = "*" ++ emphasized ++ "*")
   /\ (emphasized = "" -> out = "*indistinct*"))
  /\ (~ isIndistinct_spec rawText avgLogprob avgWordProbability ->
      out = emphasized).

(** What one word adds to each side. *)
Definition word_sides (t : Q) (w : WordToken)
  : list WordToken * list WordToken :=
  assign_word t ([], []) w.

(** The left and the right part built from a side's words. *)
Definition left_part (seg : TranscriptSegment) (t : Q) (lw : list WordToken)
  : TranscriptSegment :=
  mkTranscriptSegment (start seg) t (part_text lw) (avg_logprob seg)
    (no_speech_prob seg) (speaker seg) (Some lw).

Definition right_part (seg : TranscriptSegment) (t : Q) (rw : list WordToken)
  : TranscriptSegment :=
  mkTranscriptSegment t (end_ seg) (part_text rw) (avg_logprob seg)
    (no_speech_prob seg) (speaker seg) (Some rw).

Definition part_if_words
    (mk : list WordToken -> TranscriptSegment) (ws : list WordToken)
  : list TranscriptSegment :=
  match ws with [] => [] | _ => [mk ws] end.

(** The text of a part as the specification words it: [finalize] applied
    to the stripped concatenation of the words of the part, with the
    segment's [avg_logprob] and [no_speech_prob] as confidence arguments. *)
Definition part_text_finalized (seg p : TranscriptSegment) : Prop :=
  exists side,
    words p = Some side
    /\ text p = finalize (PyStr.strip (PyStr.join (map word side)))
                  (avg_logprob seg) (no_speech_prob seg).

(** A segment of low confidence, [avg_logprob = -2.0], with two words. *)
Definition seg_low : TranscriptSegment :=
  mkTranscriptSegment 0 2 "*uh ok*" (Some (-2.0)) None (Some "You")
    (Some [mkWordToken 0 1 "uh" None; mkWordToken 1 2 " ok" None]).

Definition straddles (t : Q) (w : WordToken) : Prop :=
  w_start w < t /\ t < w_end w.

(** The parts tile the span from [s] to [e]: the first starts at [s], each
    next one starts where the one before it ends, and the last ends at
    [e]. *)
Fixpoint covers (s e : Q) (parts : list TranscriptSegment) : Prop :=
  match parts with
  | [] => s == e
  | p :: rest => start p == s /\ covers (end_ p) e rest
  end.

(** The parts partition the span from [s] to [e] at [t]: some of them
    tile the span from [s] to [t] and the rest tile the span from [t] to
    [e]. *)
Definition partitions_at (s e t : Q) (parts : list TranscriptSegment)
  : Prop :=
  exists l r, parts = (l ++ r)%list /\ covers s t l /\ covers t e r.

(** A segment whose only word lies before the boundary. *)
Definition seg_one_sided : TranscriptSegment :=
  mkTranscriptSegment 0 2 "Hi" None None None
    (Some [mkWordToken 0 0.5 "Hi" None]).

(** The order of the sort key [(start, end)]: by start, and by end among
    equal starts. *)
Definition seg_le (a b : TranscriptSegment) : Prop :=
  start a <= start b /\ (start a == start b -> end_ a <= end_ b).

(** The words of a segment, none when it has no alignment. *)
Definition words_of (s : TranscriptSegment) : list WordToken :=
  match words s with Some ws => ws | None => [] end.

(** The span of [p] lies within the span of [s]. *)
Definition within (s p : TranscriptSegment) : Prop :=
  start s <= start p /\ end_ p <= end_ s.

(** The boundary [t] lies strictly inside the span of [p]. *)
Definition cuts (t : Q) (p : TranscriptSegment) : Prop :=
  start p < t /\ t < end_ p.

Definition nonspace (c : ascii) : bool := negb (PyStr.isspace c).

Definition is_opening (c : ascii) : bool :=
  Ascii.eqb c "[" || Ascii.eqb c "(".

(** The token [transcribe_file] makes of a recognizer word. *)
Definition token_of (w : RecWord) : WordToken :=
  mkWordToken (rw_start w) (rw_end w) (rw_word w) (rw_probability w).

Definition rec_tokens (seg : RecSegment) : list WordToken :=
  match rs_words seg with Some ws => map token_of ws | None => [] end.

(** Every word of [ws] starts less than the split gap after the end of
    the word before it. *)
Fixpoint close_words (ws : list WordToken) : Prop :=
  match ws with
  | [] => True
  | a :: rest =>
      match rest with
      | [] => True
      | b :: _ =>
          fsub (w_start b) (w_end a) < SPLIT_GAP_SECONDS /\ close_words rest
      end
  end.

(** Two segments have the same sort key. *)
Definition same_key (a b : TranscriptSegment) : bool :=
  Qeq_bool (start a) (start b) && Qeq_bool (end_ a) (end_ b).

(** [p] is a piece of [s]: its span lies within the span of [s] and it has
    the speaker and the confidence fields of [s]. *)
Definition piece_of (s p : TranscriptSegment) : Prop :=
  within s p /\ speaker p = speaker s
  /\ avg_logprob p = avg_logprob s /\ no_speech_prob p = no_speech_prob s.

(** The word texts of a list of segments, in order. *)
Definition word_texts (parts : list TranscriptSegment) : list string :=
  flat_map (fun p => map word (words_of p)) parts.

(** What [transcribe_file] makes of one recognizer segment: a segment
    without words is the recognizer segment as a whole, with its span and
    the finalized form of its stripped text; a segment with words spans
    from the start of its first word to the end of its last word, its text
    is the finalized form of the stripped concatenation of its words, with
    the mean of their probabilities as [statistics.mean] rounds it to a
    double, and each of its words starts less than the split gap after the
    end of the one before, the difference being that of doubles.  Either
    has the recognizer segment's confidence fields and no speaker. *)
Definition made_from (seg : RecSegment) (p : TranscriptSegment) : Prop :=
  avg_logprob p = rs_avg_logprob seg
  /\ no_speech_prob p = rs_no_speech_prob seg
  /\ speaker p = None
  /\ match words p with
     | None =>
         (rs_words seg = None \/ rs_words seg = Some [])
         /\ start p = rs_start seg /\ end_ p = rs_end seg
         /\ text p
            = finalize (PyStr.strip (rs_text seg)) (rs_avg_logprob seg) None
     | Some [] => False
     | Some (w0 :: ws) =>
         start p = w_start w0
         /\ end_ p = w_end (last (w0 :: ws) w0)
         /\ text p
            = finalize (PyStr.strip (PyStr.join (map word (w0 :: ws))))
                (rs_avg_logprob seg) (avg_word_prob_of (w0 :: ws))
         /\ close_words (w0 :: ws)
     end.

(** The invariant of the loop over the words: with no current word there
    is no previous end; otherwise [current_start] is the start of the first
    current word, [prev_end] is the end of the last one, and the current
    words are close to one another. *)
Definition words_inv (st : FlushState) : Prop :=
  match current_words st with
  | [] => prev_end st = None
  | w0 :: ws =>
      current_start st = Some (w_start w0)
      /\ prev_end st = Some (w_end (last (w0 :: ws) w0))
      /\ close_words (w0 :: ws)
  end.

(** The segments of a channel with their speaker set, as
    [merge_dialogue] labels them. *)
Definition labelled (sp : string) (segs : list TranscriptSegment)
  : list TranscriptSegment :=
  map (fun s => replace_speaker s sp) segs.

(** [p] is a piece of [s] that has a well-formed span if [s] has one. *)
Definition sub_span (s p : TranscriptSegment) : Prop :=
  piece_of s p /\ (start s <= end_ s -> start p <= end_ p).

(** * Properties *)

(** ** Comparisons *)

Lemma Qltb_lt (x y : Q) : Qltb x y = true <-> x < y.
Proof.
  unfold Qltb. rewrite negb_true_iff. split.
  - intro H. apply Qnot_le_lt. intro Hle.
    apply Qle_bool_iff in Hle. congruence.
  - intro H. destruct (Qle_bool y x) eqn:E; [| reflexivity].
    apply Qle_bool_iff in E. exfalso. exact (Qlt_not_le _ _ H E).
Qed.

Lemma Qltb_ge (x y : Q) : Qltb x y = false <-> y <= x.
Proof.
  unfold Qltb. rewrite negb_false_iff. apply Qle_bool_iff.
Qed.

Lemma Qle_bool_gt (x y : Q) : Qle_bool x y = false <-> y < x.
Proof.
  rewrite <- Qltb_lt. unfold Qltb. rewrite negb_true_iff. reflexivity.
Qed.

(** ** Confidence classifier *)

Lemma span_empty_prefix cls s :
  fst (PyStr.span cls s) = EmptyString <->
  match s with EmptyString => True | String c _ => cls c = false end.
Proof.
  destruct s as [| c s']; simpl.
  - tauto.
  - destruct (cls c) eqn:E.
    + destruct (PyStr.span cls s'); simpl. split; discriminate.
    + simpl. tauto.
Qed.

Lemma WORDLIKE_match_None s :
  _WORDLIKE_match s = None <->
  match s with EmptyString => True | String c _ => wordlike_char c = false end.
Proof.
  unfold _WORDLIKE_match. rewrite <- span_empty_prefix.
  destruct (PyStr.span wordlike_char s) as [[| a m] r]; simpl;
    split; try reflexivity; discriminate.
Qed.

Lemma WORDLIKE_search_None s :
  _WORDLIKE_search s = None <-> PyStr.existsb wordlike_char s = false.
Proof.
  induction s as [| c s' IH].
  - simpl. tauto.
  - cbn [_WORDLIKE_search PyStr.existsb].
    destruct (_WORDLIKE_match (String c s')) eqn:E.
    + assert (wordlike_char c = true) as Hc.
      { destruct (wordlike_char c) eqn:Ec; [reflexivity |].
        apply (proj2 (WORDLIKE_match_None (String c s'))) in Ec. congruence. }
      rewrite Hc. simpl. split; discriminate.
    + apply WORDLIKE_match_None in E. rewrite E. simpl. exact IH.
Qed.

Lemma existsb_false_iff cls s :
  PyStr.existsb cls s = false <->
  forall c, In c (list_ascii_of_string s) -> cls c = false.
Proof.
  induction s as [| a s' IH]; simpl.
  - split; [intros _ c [] | reflexivity].
  - rewrite orb_false_iff, IH. split.
    + intros [Ha Hs] c [<- | Hc]; auto.
    + intro H. split; [apply H; left; reflexivity |].
      intros c Hc. apply H. right. exact Hc.
Qed.

Lemma truthy_false s : PyStr.truthy s = false <-> s = EmptyString.
Proof. destruct s; simpl; split; congruence. Qed.

Lemma should_mark_indistinct_iff raw lp wp :
  _should_mark_indistinct raw lp wp = true <-> isIndistinct_spec raw lp wp.
Proof.
  unfold _should_mark_indistinct, isIndistinct_spec.
  destruct (PyStr.truthy raw) eqn:Et; simpl.
  - assert (raw <> "") as Hne.
    { intro H. apply truthy_false in H. congruence. }
    destruct (_WORDLIKE_search raw) eqn:Es.
    + assert (~ (forall c, In c (list_ascii_of_string raw) ->
                           wordlike_char c = false)) as Hw.
      { intro H. apply existsb_false_iff, WORDLIKE_search_None in H.
        congruence. }
      destruct wp as [p |].
      * destruct (Qltb p 0.40) eqn:Ep.
        -- split; [| reflexivity]. intros _. right. right. left.
           exists p. split; [reflexivity | apply Qltb_lt; exact Ep].
        -- apply Qltb_ge in Ep.
           destruct lp as [l |].
           ++ destruct (Qltb l (-1.2)) eqn:El.
              ** split; [| reflexivity]. intros _. do 3 right.
                 exists l. split; [reflexivity | apply Qltb_lt; exact El].
              ** apply Qltb_ge in El. split; [discriminate |].
                 intros [H | [H | [[q [Hq Hlt]] | [q [Hq Hlt]]]]];
                   try contradiction; exfalso; inversion Hq; subst q.
                 --- exact (Qlt_not_le _ _ Hlt Ep).
                 --- exact (Qlt_not_le _ _ Hlt El).
           ++ split; [discriminate |].
              intros [H | [H | [[q [Hq Hlt]] | [q [Hq Hlt]]]]];
                try contradiction; try discriminate.
              exfalso. inversion Hq; subst q. exact (Qlt_not_le _ _ Hlt Ep).
      * destruct lp as [l |].
        -- destruct (Qltb l (-1.2)) eqn:El.
           ++ split; [| reflexivity]. intros _. do 3 right.
              exists l. split; [reflexivity | apply Qltb_lt; exact El].
           ++ apply Qltb_ge in El. split; [discriminate |].
              intros [H | [H | [[q [Hq Hlt]] | [q [Hq Hlt]]]]];
                try contradiction; try discriminate.
              exfalso. inversion Hq; subst q. exact (Qlt_not_le _ _ Hlt El).
        -- split; [discriminate |].
           intros [H | [H | [[q [Hq Hlt]] | [q [Hq Hlt]]]]];
             try contradiction; discriminate.
    + split; [| reflexivity]. intros _. right. left.
      apply existsb_false_iff, WORDLIKE_search_None. exact Es.
  - split; [| reflexivity]. intros _. left.
    apply truthy_false. exact Et.
Qed.

(** C5. [finalize] emphasises the asides of the raw text and leaves the
    result unchanged unless the raw text is indistinct; the raw text is
    indistinct exactly when it is empty, or holds no word-like character,
    or the average word probability is present and below 0.40, or the
    average log-probability is present and below -1.2; an indistinct text
    is wrapped in asterisks when its emphasised form is not empty and
    replaced by the marker otherwise.  So [finalize("", None, None)] is
    the marker and [finalize("uh", -2.0, None)] is ["*uh*"]. *)
Theorem finalize_correct :
  forall (raw : string) (lp wp : option Q),
    (_should_mark_indistinct raw lp wp = true <-> isIndistinct_spec raw lp wp)
    /\ finalize_spec raw lp wp (finalize raw lp wp)
    /\ finalize "" None None = "*indistinct*"
    /\ finalize "uh" (Some (-2.0)) None = "*uh*".
Proof.
  intros raw lp wp.
  split; [apply should_mark_indistinct_iff |].
  split; [| split; vm_compute; reflexivity].
  unfold finalize_spec, finalize.
  destruct (_should_mark_indistinct raw lp wp) eqn:E.
  - apply should_mark_indistinct_iff in E. split; [| contradiction].
    intros _. destruct (_emphasize_bracketed raw) eqn:Ee; simpl.
    + split; [congruence | reflexivity].
    + split; [reflexivity | discriminate].
  - split.
    + intro H. apply should_mark_indistinct_iff in H. congruence.
    + reflexivity.
Qed.

(** The emphasis rewrite on a few inputs: asides in brackets and in
    parentheses, nested delimiters, and an empty pair, which is not an
    aside. *)
Example emphasize_asides :
  _emphasize_bracketed "so [ laughs ]  yes (hm)" = "so *laughs* yes *hm* "
  /\ _emphasize_bracketed "[(x)]" = " *x* "
  /\ _emphasize_bracketed "a[]b (c" = "a[]b (c"
  /\ _emphasize_bracketed "plain text" = "plain text".
Proof. repeat split; vm_compute; reflexivity. Qed.

(** ** The word-partition loop *)

Lemma assign_word_sides t l r w :
  assign_word t (l, r) w
  = ((l ++ fst (word_sides t w))%list, (r ++ snd (word_sides t w))%list).
Proof.
  unfold word_sides, assign_word.
  destruct (Qle_bool (w_end w) t); [simpl; rewrite app_nil_r; reflexivity |].
  destruct (Qle_bool t (w_start w)); [simpl; rewrite app_nil_r; reflexivity |].
  destruct (Qle_bool (fdiv (fadd (w_start w) (w_end w)) 2) t);
    simpl; rewrite app_nil_r; reflexivity.
Qed.

Lemma word_sides_one t w :
  (length (fst (word_sides t w)) + length (snd (word_sides t w)) = 1)%nat.
Proof.
  unfold word_sides, assign_word.
  destruct (Qle_bool (w_end w) t); [reflexivity |].
  destruct (Qle_bool t (w_start w)); [reflexivity |].
  destruct (Qle_bool (fdiv (fadd (w_start w) (w_end w)) 2) t); reflexivity.
Qed.

Lemma fold_assign_word t ws : forall l r,
  fold_left (assign_word t) ws (l, r)
  = ((l ++ fst (partition_words ws t))%list,
     (r ++ snd (partition_words ws t))%list).
Proof.
  unfold partition_words.
  induction ws as [| w ws IH]; intros l r; cbn [fold_left].
  - simpl. rewrite !app_nil_r. reflexivity.
  - rewrite (assign_word_sides t [] [] w). cbn [app].
    rewrite (assign_word_sides t l r w).
    rewrite IH. rewrite (IH (fst (word_sides t w)) (snd (word_sides t w))).
    cbn [fst snd]. rewrite !app_assoc. reflexivity.
Qed.

Lemma partition_words_cons t w ws :
  partition_words (w :: ws) t
  = ((fst (word_sides t w) ++ fst (partition_words ws t))%list,
     (snd (word_sides t w) ++ snd (partition_words ws t))%list).
Proof.
  unfold partition_words at 1. cbn [fold_left].
  rewrite (assign_word_sides t [] [] w). cbn [app].
  apply fold_assign_word.
Qed.

Lemma partition_words_app t ws1 ws2 :
  partition_words (ws1 ++ ws2) t
  = ((fst (partition_words ws1 t) ++ fst (partition_words ws2 t))%list,
     (snd (partition_words ws1 t) ++ snd (partition_words ws2 t))%list).
Proof.
  unfold partition_words at 1. rewrite fold_left_app.
  fold (partition_words ws1 t).
  destruct (partition_words ws1 t) as [l r]. simpl.
  apply fold_assign_word.
Qed.

Lemma partition_words_length t ws :
  (length (fst (partition_words ws t)) + length (snd (partition_words ws t))
   = length ws)%nat.
Proof.
  induction ws as [| w ws IH].
  - reflexivity.
  - rewrite partition_words_cons. simpl. rewrite !length_app.
    pose proof (word_sides_one t w). lia.
Qed.

Lemma partition_words_nonempty t w ws :
  partition_words (w :: ws) t <> ([], []).
Proof.
  intro H. pose proof (partition_words_length t (w :: ws)) as L.
  rewrite H in L. simpl in L. discriminate.
Qed.

(** A word that straddles the boundary goes, truncated, to the side of
    its midpoint. *)
Lemma word_sides_straddle t w :
  w_start w < t -> t < w_end w ->
  word_sides t w
  = if Qle_bool (fdiv (fadd (w_start w) (w_end w)) 2) t
    then ([mkWordToken (w_start w) t (word w) (probability w)], [])
    else ([], [mkWordToken t (w_end w) (word w) (probability w)]).
Proof.
  intros Hs He. unfold word_sides, assign_word.
  apply Qle_bool_gt in He. rewrite He.
  apply Qle_bool_gt in Hs. rewrite Hs.
  destruct (Qle_bool (fdiv (fadd (w_start w) (w_end w)) 2) t); reflexivity.
Qed.

Lemma word_sides_left t w :
  w_end w <= t -> word_sides t w = ([w], []).
Proof.
  intro H. unfold word_sides, assign_word.
  apply Qle_bool_iff in H. rewrite H. reflexivity.
Qed.

Lemma word_sides_right t w :
  t < w_end w -> t <= w_start w -> word_sides t w = ([], [w]).
Proof.
  intros He Hs. unfold word_sides, assign_word.
  apply Qle_bool_gt in He. rewrite He.
  apply Qle_bool_iff in Hs. rewrite Hs. reflexivity.
Qed.

(** ** Segment splitter *)

Lemma split_inside_guard seg t :
  start seg < t -> t < end_ seg ->
  Qle_bool t (start seg) || Qle_bool (end_ seg) t = false.
Proof.
  intros Hs He. apply orb_false_iff. split; apply Qle_bool_gt; assumption.
Qed.

(** Inside the span of a segment with at least one word, the result is the
    left part, when it has words, followed by the right part, when it has
    words. *)
Lemma split_aligned seg t w ws :
  words seg = Some (w :: ws) ->
  start seg < t -> t < end_ seg ->
  _split_segment_at_time seg t
  = (part_if_words (left_part seg t) (fst (partition_words (w :: ws) t))
     ++ part_if_words (right_part seg t)
          (snd (partition_words (w :: ws) t)))%list.
Proof.
  intros Hw Hs He. unfold _split_segment_at_time.
  rewrite (split_inside_guard seg t Hs He), Hw.
  pose proof (partition_words_nonempty t w ws) as Hne.
  destruct (partition_words (w :: ws) t) as [[| l lw] [| r rw]];
    simpl; try reflexivity.
  exfalso. apply Hne. reflexivity.
Qed.

Lemma split_unaligned seg t :
  (words seg = None \/ words seg = Some []) ->
  start seg < t -> t < end_ seg ->
  _split_segment_at_time seg t
  = [replace_end seg t; replace_start_text seg t ""].
Proof.
  intros Hw Hs He. unfold _split_segment_at_time.
  rewrite (split_inside_guard seg t Hs He).
  destruct Hw as [-> | ->]; reflexivity.
Qed.

Lemma split_outside seg t :
  t <= start seg \/ end_ seg <= t ->
  _split_segment_at_time seg t = [seg].
Proof.
  intro H. unfold _split_segment_at_time.
  assert (Qle_bool t (start seg) || Qle_bool (end_ seg) t = true) as ->.
  { apply orb_true_iff. destruct H as [H | H]; [left | right];
      apply Qle_bool_iff; exact H. }
  reflexivity.
Qed.

Lemma split_cases seg t :
  _split_segment_at_time seg t = [seg]
  \/ _split_segment_at_time seg t
     = [replace_end seg t; replace_start_text seg t ""]
  \/ exists w ws,
       words seg = Some (w :: ws) /\ start seg < t /\ t < end_ seg
       /\ _split_segment_at_time seg t
          = (part_if_words (left_part seg t)
               (fst (partition_words (w :: ws) t))
             ++ part_if_words (right_part seg t)
                  (snd (partition_words (w :: ws) t)))%list.
Proof.
  destruct (Qle_bool t (start seg)) eqn:E1.
  { left. apply split_outside. left. apply Qle_bool_iff. exact E1. }
  destruct (Qle_bool (end_ seg) t) eqn:E2.
  { left. apply split_outside. right. apply Qle_bool_iff. exact E2. }
  apply Qle_bool_gt in E1, E2.
  destruct (words seg) as [[| w ws] |] eqn:Hw.
  - right. left. apply split_unaligned; auto.
  - right. right. exists w, ws. repeat split; auto.
    apply split_aligned; assumption.
  - right. left. apply split_unaligned; auto.
Qed.

(** C1, as stated, fails: splitting [seg_low] at 1 gives a left part with
    the plain text ["uh"], where [finalize] of its words with the segment's
    confidence gives ["*uh*"]. *)
Lemma split_text_not_finalized :
  _split_segment_at_time seg_low 1
  = [mkTranscriptSegment 0 1 "uh" (Some (-2.0)) None (Some "You")
       (Some [mkWordToken 0 1 "uh" None]);
     mkTranscriptSegment 1 2 "ok" (Some (-2.0)) None (Some "You")
       (Some [mkWordToken 1 2 " ok" None])]
  /\ finalize "uh" (avg_logprob seg_low) (no_speech_prob seg_low) = "*uh*"
  /\ ~ (forall p, In p (_split_segment_at_time seg_low 1) ->
                  part_text_finalized seg_low p).
Proof.
  assert (_split_segment_at_time seg_low 1
          = [mkTranscriptSegment 0 1 "uh" (Some (-2.0)) None (Some "You")
               (Some [mkWordToken 0 1 "uh" None]);
             mkTranscriptSegment 1 2 "ok" (Some (-2.0)) None (Some "You")
               (Some [mkWordToken 1 2 " ok" None])]) as E
    by (vm_compute; reflexivity).
  split; [exact E |]. split; [vm_compute; reflexivity |].
  intro H. rewrite E in H.
  destruct (H _ (or_introl eq_refl)) as [side [Hw Ht]].
  simpl in Hw. inversion Hw; subst side.
  vm_compute in Ht. discriminate.
Qed.

(** C1, amended.  Inside the span of a segment that has words, every part
    of the split is the left part, spanning from the segment's start to the
    boundary, or the right part, spanning from the boundary to the
    segment's end; it holds its side's words, which are not empty; its text
    is the emphasis rewrite of the stripped concatenation of its words when
    that is not empty and the marker [*indistinct*] otherwise, with no
    confidence thresholding; and it carries the segment's [avg_logprob],
    [no_speech_prob] and [speaker]. *)
Theorem split_part_text :
  forall (seg : TranscriptSegment) (t : Q) (w : WordToken)
         (ws : list WordToken),
    words seg = Some (w :: ws) ->
    start seg < t -> t < end_ seg ->
    forall p, In p (_split_segment_at_time seg t) ->
      exists side,
        (side = fst (partition_words (w :: ws) t)
         /\ start p = start seg /\ end_ p = t
         \/ side = snd (partition_words (w :: ws) t)
            /\ start p = t /\ end_ p = end_ seg)
        /\ side <> []
        /\ words p = Some side
        /\ text p
           = (let raw := PyStr.strip (PyStr.join (map word side)) in
              if String.eqb raw "" then "*indistinct*"
              else _emphasize_bracketed raw)
        /\ avg_logprob p = avg_logprob seg
        /\ no_speech_prob p = no_speech_prob seg
        /\ speaker p = speaker seg.
Proof.
  intros seg t w ws Hw Hs He p Hp.
  rewrite (split_aligned seg t w ws Hw Hs He) in Hp.
  assert (forall side, part_text side
            = (let raw := PyStr.strip (PyStr.join (map word side)) in
               if String.eqb raw "" then "*indistinct*"
               else _emphasize_bracketed raw)) as Htext.
  { intro side. unfold part_text.
    destruct (PyStr.strip (PyStr.join (map word side))); reflexivity. }
  apply in_app_or in Hp. destruct Hp as [Hp | Hp].
  - destruct (fst (partition_words (w :: ws) t)) as [| x lw] eqn:El;
      [destruct Hp |].
    destruct Hp as [<- | []]. exists (x :: lw).
    split; [left; auto |]. split; [discriminate |].
    split; [reflexivity |]. split; [exact (Htext _) |]. auto.
  - destruct (snd (partition_words (w :: ws) t)) as [| x rw] eqn:Er;
      [destruct Hp |].
    destruct Hp as [<- | []]. exists (x :: rw).
    split; [right; auto |]. split; [discriminate |].
    split; [reflexivity |]. split; [exact (Htext _) |]. auto.
Qed.

Lemma split_part_text_witness :
  exists side,
    (side = fst (partition_words
                   [mkWordToken 0 1 "uh" None; mkWordToken 1 2 " ok" None] 1)
     /\ 0 = start seg_low /\ 1 = 1
     \/ side = snd (partition_words
                      [mkWordToken 0 1 "uh" None; mkWordToken 1 2 " ok" None]
                      1)
        /\ 0 = 1 /\ 1 = end_ seg_low)
    /\ side <> []
    /\ Some [mkWordToken 0 1 "uh" None] = Some side
    /\ "uh"
       = (let raw := PyStr.strip (PyStr.join (map word side)) in
          if String.eqb raw "" then "*indistinct*"
          else _emphasize_bracketed raw)
    /\ Some (-2.0) = avg_logprob seg_low
    /\ None = no_speech_prob seg_low
    /\ Some "You" = speaker seg_low.
Proof.
  apply (split_part_text seg_low 1
           (mkWordToken 0 1 "uh" None) [mkWordToken 1 2 " ok" None]
           eq_refl eq_refl eq_refl
           (mkTranscriptSegment 0 1 "uh" (Some (-2.0)) None (Some "You")
              (Some [mkWordToken 0 1 "uh" None]))).
  vm_compute. left. reflexivity.
Defined.

(** C4. Inside the span of a segment without word alignment the split is
    exactly two parts: a copy that ends at the boundary and keeps the text,
    then a copy that starts at the boundary and has the empty text. *)
Theorem split_without_alignment :
  forall (seg : TranscriptSegment) (t : Q),
    words seg = None ->
    start seg < t -> t < end_ seg ->
    _split_segment_at_time seg t
    = [mkTranscriptSegment (start seg) t (text seg) (avg_logprob seg)
         (no_speech_prob seg) (speaker seg) None;
       mkTranscriptSegment t (end_ seg) "" (avg_logprob seg)
         (no_speech_prob seg) (speaker seg) None].
Proof.
  intros seg t Hw Hs He.
  rewrite (split_unaligned seg t (or_introl Hw) Hs He).
  unfold replace_end, replace_start_text. rewrite Hw. reflexivity.
Qed.

Lemma split_without_alignment_witness :
  _split_segment_at_time
    (mkTranscriptSegment 0 1 "Hello" None None (Some "You") None) 0.5
  = [mkTranscriptSegment 0 0.5 "Hello" None None (Some "You") None;
     mkTranscriptSegment 0.5 1 "" None None (Some "You") None].
Proof.
  apply (split_without_alignment
           (mkTranscriptSegment 0 1 "Hello" None None (Some "You") None) 0.5
           eq_refl eq_refl eq_refl).
Defined.

(** C3. Inside the span of a segment that has words, a word that
    straddles the boundary goes to exactly one side, chosen by its
    midpoint [(start + end) / 2], the sum and the quotient being those of
    doubles as the code computes them: truncated to end at the boundary and
    appended to the left words when the midpoint is at most the boundary,
    truncated to start at the boundary and appended to the right words
    otherwise; the other side receives no token for it, and the part of
    the chosen side holds these words. *)
Theorem straddling_word_by_midpoint :
  forall (seg : TranscriptSegment) (t : Q) (w : WordToken)
         (pre post : list WordToken),
    words seg = Some (pre ++ w :: post)%list ->
    start seg < t -> t < end_ seg ->
    w_start w < t -> t < w_end w ->
    let mid := fdiv (fadd (w_start w) (w_end w)) 2 in
    let before := partition_words pre t in
    let after := partition_words post t in
    (mid <= t ->
     let lw :=
       (fst before
          ++ mkWordToken (w_start w) t (word w) (probability w)
             :: fst after)%list in
     partition_words (pre ++ w :: post) t
     = (lw, (snd before ++ snd after)%list)
     /\ In (mkTranscriptSegment (start seg) t (part_text lw)
              (avg_logprob seg) (no_speech_prob seg) (speaker seg)
              (Some lw))
          (_split_segment_at_time seg t))
    /\ (t < mid ->
        let rw :=
          (snd before
             ++ mkWordToken t (w_end w) (word w) (probability w)
                :: snd after)%list in
        partition_words (pre ++ w :: post) t
        = ((fst before ++ fst after)%list, rw)
        /\ In (mkTranscriptSegment t (end_ seg) (part_text rw)
                 (avg_logprob seg) (no_speech_prob seg) (speaker seg)
                 (Some rw))
             (_split_segment_at_time seg t)).
Proof.
  intros seg t w pre post Hw Hs He Hws Hwe mid before after.
  assert (exists x rest, (pre ++ w :: post)%list = x :: rest) as [x [rest Ex]].
  { destruct pre as [| x pre]; simpl; eauto. }
  rewrite Ex in Hw. rewrite (split_aligned seg t x rest Hw Hs He).
  rewrite <- Ex. clear Ex Hw.
  rewrite partition_words_app, partition_words_cons.
  rewrite (word_sides_straddle t w Hws Hwe). fold mid before after.
  split; intros Hm side.
  - apply Qle_bool_iff in Hm. rewrite Hm. cbn [fst snd app].
    fold side. split; [reflexivity |].
    apply in_or_app. left. unfold side.
    destruct (fst before); left; reflexivity.
  - apply Qle_bool_gt in Hm. rewrite Hm. cbn [fst snd app].
    fold side. split; [reflexivity |].
    apply in_or_app. right. unfold side.
    destruct (snd before); left; reflexivity.
Qed.

(** A segment whose middle word straddles the boundary 1. *)
Lemma straddling_word_by_midpoint_witness :
  let seg :=
    mkTranscriptSegment 0 2 "a b c" None None None
      (Some [mkWordToken 0 0.5 "a" None; mkWordToken 0.5 1.2 " b" None;
             mkWordToken 1.2 2 " c" None]) in
  let lw := [mkWordToken 0 0.5 "a" None; mkWordToken 0.5 1 " b" None] in
  partition_words
    [mkWordToken 0 0.5 "a" None; mkWordToken 0.5 1.2 " b" None;
     mkWordToken 1.2 2 " c" None] 1
  = (lw, [mkWordToken 1.2 2 " c" None])
  /\ In (mkTranscriptSegment 0 1 (part_text lw) None None None (Some lw))
       (_split_segment_at_time seg 1).
Proof.
  apply (proj1 (straddling_word_by_midpoint
                  (mkTranscriptSegment 0 2 "a b c" None None None
                     (Some [mkWordToken 0 0.5 "a" None;
                            mkWordToken 0.5 1.2 " b" None;
                            mkWordToken 1.2 2 " c" None]))
                  1 (mkWordToken 0.5 1.2 " b" None)
                  [mkWordToken 0 0.5 "a" None] [mkWordToken 1.2 2 " c" None]
                  eq_refl eq_refl eq_refl eq_refl eq_refl)).
  vm_compute. discriminate.
Defined.

(** The word 1.01..1.25 against the boundary 1.13: the sum and its half
    are rounded, the midpoint comes out as the double 1.13 itself and the
    word goes to the left, although the exact midpoint of the two doubles
    lies above the boundary. *)
Example straddling_word_rounded_midpoint :
  partition_words [mkWordToken (fl 1.01) (fl 1.25) " x" None] (fl 1.13)
  = ([mkWordToken (fl 1.01) (fl 1.13) " x" None], [])
  /\ fdiv (fadd (fl 1.01) (fl 1.25)) 2 = fl 1.13
  /\ fl 1.13 < (fl 1.01 + fl 1.25) / 2.
Proof. repeat split; vm_compute; reflexivity. Qed.

(** ** Coverage of the span *)

Lemma partition_words_left_In t x ws :
  In x ws -> fst (word_sides t x) <> [] ->
  fst (partition_words ws t) <> [].
Proof.
  intros Hin Hx. apply in_split in Hin. destruct Hin as [a [b ->]].
  rewrite partition_words_app, partition_words_cons. simpl.
  intro H. apply app_eq_nil in H. destruct H as [_ H].
  apply app_eq_nil in H. destruct H as [H _]. contradiction.
Qed.

Lemma partition_words_right_In t x ws :
  In x ws -> snd (word_sides t x) <> [] ->
  snd (partition_words ws t) <> [].
Proof.
  intros Hin Hx. apply in_split in Hin. destruct Hin as [a [b ->]].
  rewrite partition_words_app, partition_words_cons. simpl.
  intro H. apply app_eq_nil in H. destruct H as [_ H].
  apply app_eq_nil in H. destruct H as [H _]. contradiction.
Qed.

Lemma partition_words_all_left t ws :
  (forall x, In x ws -> w_end x <= t) -> partition_words ws t = (ws, []).
Proof.
  induction ws as [| w ws IH]; intro H.
  - reflexivity.
  - rewrite partition_words_cons.
    rewrite (word_sides_left t w (H w (or_introl eq_refl))).
    rewrite IH; [reflexivity |].
    intros x Hx. apply H. right. exact Hx.
Qed.

Lemma partition_words_all_right t ws :
  (forall x, In x ws -> t < w_end x /\ t <= w_start x) ->
  partition_words ws t = ([], ws).
Proof.
  induction ws as [| w ws IH]; intro H.
  - reflexivity.
  - rewrite partition_words_cons.
    destruct (H w (or_introl eq_refl)) as [He Hs].
    rewrite (word_sides_right t w He Hs).
    rewrite IH; [reflexivity |].
    intros x Hx. apply H. right. exact Hx.
Qed.

(** C2, as stated, fails: no word of [seg_one_sided] straddles 1, yet the
    split at 1 is the left part alone, and the span from 1 to 2 is not
    covered. *)
Lemma split_one_sided_gap :
  words seg_one_sided = Some [mkWordToken 0 0.5 "Hi" None]
  /\ start seg_one_sided < 1 /\ 1 < end_ seg_one_sided
  /\ (forall x, In x [mkWordToken 0 0.5 "Hi" None] -> ~ straddles 1 x)
  /\ _split_segment_at_time seg_one_sided 1
     = [mkTranscriptSegment 0 1 "Hi" None None None
          (Some [mkWordToken 0 0.5 "Hi" None])]
  /\ ~ partitions_at (start seg_one_sided) (end_ seg_one_sided) 1
         (_split_segment_at_time seg_one_sided 1).
Proof.
  assert (_split_segment_at_time seg_one_sided 1
          = [mkTranscriptSegment 0 1 "Hi" None None None
               (Some [mkWordToken 0 0.5 "Hi" None])]) as E
    by (vm_compute; reflexivity).
  split; [reflexivity |]. split; [reflexivity |]. split; [reflexivity |].
  split.
  { intros x [<- | []] [_ H]. vm_compute in H. discriminate. }
  split; [exact E |].
  rewrite E. intros [l [r [Hp [Hl Hr]]]].
  destruct l as [| a l].
  - simpl in Hl. vm_compute in Hl. discriminate.
  - simpl in Hp. inversion Hp as [[Ha Hnil]].
    symmetry in Hnil. apply app_eq_nil in Hnil. destruct Hnil as [_ ->].
    simpl in Hr. vm_compute in Hr. discriminate.
Qed.

(** C2, amended.  Inside the span of a segment that has words, none of
    which straddles the boundary: when at least one word ends at or before
    the boundary and at least one word ends after it, the split is exactly
    two parts whose spans partition the segment's span at the boundary, the
    first from the segment's start to the boundary and the second from the
    boundary to the segment's end; when every word ends at or before the
    boundary the split is the first of these parts alone, and when every
    word ends after it the split is the second alone. *)
Theorem split_partitions_span :
  forall (seg : TranscriptSegment) (t : Q) (w : WordToken)
         (ws : list WordToken),
    words seg = Some (w :: ws) ->
    start seg < t -> t < end_ seg ->
    (forall x, In x (w :: ws) -> ~ straddles t x) ->
    let spans :=
      map (fun p => (start p, end_ p)) (_split_segment_at_time seg t) in
    ((exists x, In x (w :: ws) /\ w_end x <= t) ->
     (exists y, In y (w :: ws) /\ t < w_end y) ->
     partitions_at (start seg) (end_ seg) t (_split_segment_at_time seg t)
     /\ spans = [(start seg, t); (t, end_ seg)])
    /\ ((forall x, In x (w :: ws) -> w_end x <= t) ->
        spans = [(start seg, t)])
    /\ ((forall x, In x (w :: ws) -> t < w_end x) ->
        spans = [(t, end_ seg)]).
Proof.
  intros seg t w ws Hw Hs He Hno spans. unfold spans. clear spans.
  rewrite (split_aligned seg t w ws Hw Hs He).
  split; [| split].
  - intros [x [Hx Hxe]] [y [Hy Hye]].
    assert (fst (partition_words (w :: ws) t) <> []) as Hl.
    { apply (partition_words_left_In t x); [exact Hx |].
      rewrite (word_sides_left t x Hxe). discriminate. }
    assert (snd (partition_words (w :: ws) t) <> []) as Hr.
    { apply (partition_words_right_In t y); [exact Hy |].
      rewrite (word_sides_right t y Hye); [discriminate |].
      apply Qnot_lt_le. intro Hlt. apply (Hno y Hy). split; assumption. }
    destruct (partition_words (w :: ws) t) as [[| a lw] [| b rw]];
      simpl in Hl, Hr; try congruence.
    split; [| reflexivity].
    exists [left_part seg t (a :: lw)], [right_part seg t (b :: rw)].
    split; [reflexivity |]. simpl. repeat split; reflexivity.
  - intro Hall. rewrite (partition_words_all_left t (w :: ws) Hall).
    reflexivity.
  - intro Hall. rewrite (partition_words_all_right t (w :: ws)).
    + reflexivity.
    + intros x Hx. split; [apply Hall; exact Hx |].
      apply Qnot_lt_le. intro Hlt. apply (Hno x Hx).
      split; [exact Hlt | apply Hall; exact Hx].
Qed.

Lemma split_partitions_span_witness :
  partitions_at 0 2 1 (_split_segment_at_time seg_low 1)
  /\ map (fun p => (start p, end_ p)) (_split_segment_at_time seg_low 1)
     = [(0, 1); (1, 2)].
Proof.
  apply (proj1 (split_partitions_span seg_low 1
                  (mkWordToken 0 1 "uh" None) [mkWordToken 1 2 " ok" None]
                  eq_refl eq_refl eq_refl
                  ltac:(intros x [<- | [<- | []]] [H1 H2];
                        [vm_compute in H2 | vm_compute in H1];
                        discriminate))).
  - exists (mkWordToken 0 1 "uh" None). split; [left; reflexivity |].
    vm_compute. discriminate.
  - exists (mkWordToken 1 2 " ok" None).
    split; [right; left; reflexivity | reflexivity].
Defined.

(** ** The split is never empty *)

Lemma split_length seg t :
  (1 <= length (_split_segment_at_time seg t) <= 2)%nat.
Proof.
  destruct (split_cases seg t) as [-> | [-> | [w [ws [_ [_ [_ E]]]]]]];
    [simpl; lia | simpl; lia |].
  rewrite E. pose proof (partition_words_nonempty t w ws) as Hne.
  destruct (partition_words (w :: ws) t) as [[| a lw] [| b rw]];
    simpl; try lia.
  exfalso. apply Hne. reflexivity.
Qed.

(** C10. Inside the span of a segment that has at least one word, every
    word adds one token to exactly one of the two sides, so the two sides
    are never both empty, the placeholder branch is not taken (the result
    is the left part, if it has words, followed by the right part, if it
    has words) and the split has one or two parts.  A segment whose word
    list is present but empty takes the branch of segments without
    alignment, and the split of any segment at any time is not empty. *)
Theorem split_never_empty :
  forall (seg : TranscriptSegment) (t : Q) (w : WordToken)
         (ws : list WordToken),
    words seg = Some (w :: ws) ->
    start seg < t -> t < end_ seg ->
    (forall x acc,
        exists tok,
          assign_word t acc x = ((fst acc ++ [tok])%list, snd acc)
          \/ assign_word t acc x = (fst acc, (snd acc ++ [tok])%list))
    /\ (length (fst (partition_words (w :: ws) t))
        + length (snd (partition_words (w :: ws) t))
        = length (w :: ws))%nat
    /\ partition_words (w :: ws) t <> ([], [])
    /\ _split_segment_at_time seg t
       = (match fst (partition_words (w :: ws) t) with
          | [] => []
          | lw => [mkTranscriptSegment (start seg) t (part_text lw)
                     (avg_logprob seg) (no_speech_prob seg) (speaker seg)
                     (Some lw)]
          end
          ++ match snd (partition_words (w :: ws) t) with
             | [] => []
             | rw => [mkTranscriptSegment t (end_ seg) (part_text rw)
                        (avg_logprob seg) (no_speech_prob seg) (speaker seg)
                        (Some rw)]
             end)%list
    /\ (length (_split_segment_at_time seg t) = 1
        \/ length (_split_segment_at_time seg t) = 2)%nat
    /\ (forall seg0 : TranscriptSegment,
          words seg0 = Some [] -> start seg0 < t -> t < end_ seg0 ->
          _split_segment_at_time seg0 t
          = [replace_end seg0 t; replace_start_text seg0 t ""])
    /\ (forall (seg0 : TranscriptSegment) (t0 : Q),
          _split_segment_at_time seg0 t0 <> []).
Proof.
  intros seg t w ws Hw Hs He.
  split.
  { intros x [l r]. unfold assign_word. simpl.
    destruct (Qle_bool (w_end x) t); [eexists; left; reflexivity |].
    destruct (Qle_bool t (w_start x)); [eexists; right; reflexivity |].
    destruct (Qle_bool (fdiv (fadd (w_start x) (w_end x)) 2) t);
      eexists; [left | right]; reflexivity. }
  split; [apply partition_words_length |].
  split; [apply partition_words_nonempty |].
  split.
  { rewrite (split_aligned seg t w ws Hw Hs He).
    unfold part_if_words, left_part, right_part.
    destruct (partition_words (w :: ws) t) as [[| a lw] [| b rw]];
      reflexivity. }
  split.
  { pose proof (split_length seg t). lia. }
  split.
  { intros seg0 H0 Hs0 He0. apply split_unaligned; auto. }
  intros seg0 t0 H. pose proof (split_length seg0 t0) as L.
  rewrite H in L. simpl in L. lia.
Qed.

Lemma split_never_empty_witness :
  (length (_split_segment_at_time seg_low 1) = 1
   \/ length (_split_segment_at_time seg_low 1) = 2)%nat.
Proof.
  exact (proj1 (proj2 (proj2 (proj2 (proj2
           (split_never_empty seg_low 1
              (mkWordToken 0 1 "uh" None) [mkWordToken 1 2 " ok" None]
              eq_refl eq_refl eq_refl)))))).
Defined.

(** ** The stable sort *)

Section PySortFacts.
Context {A : Type} (lt : A -> A -> bool) (le : A -> A -> Prop).
Hypothesis lt_true : forall x y, lt x y = true -> le x y.
Hypothesis lt_false : forall x y, lt x y = false -> le y x.
Hypothesis le_trans : forall x y z, le x y -> le y z -> le x z.

Lemma insert_sorted_perm (x : A) (l : list A) :
  Permutation (x :: l) (insert_sorted lt x l).
Proof.
  induction l as [| y l IH]; simpl.
  - apply Permutation_refl.
  - destruct (lt y x).
    + apply perm_trans with (y :: x :: l); [apply perm_swap |].
      apply perm_skip. exact IH.
    + apply Permutation_refl.
Qed.

Lemma py_sorted_perm (l : list A) : Permutation l (py_sorted lt l).
Proof.
  induction l as [| x l IH]; simpl.
  - apply perm_nil.
  - apply perm_trans with (x :: py_sorted lt l).
    + apply perm_skip. exact IH.
    + apply insert_sorted_perm.
Qed.

Lemma insert_sorted_sorted (x : A) (l : list A) :
  StronglySorted le l -> StronglySorted le (insert_sorted lt x l).
Proof.
  induction l as [| y l IH]; intro H; simpl.
  - constructor; [constructor | constructor].
  - inversion H as [| ? ? Hl Hy]; subst.
    destruct (lt y x) eqn:E.
    + constructor; [apply IH; exact Hl |].
      apply (Permutation_Forall (insert_sorted_perm x l)).
      constructor; [apply lt_true; exact E | exact Hy].
    + constructor; [exact H |].
      assert (le x y) as Hxy by (apply lt_false; exact E).
      constructor; [exact Hxy |].
      revert Hy. apply Forall_impl. intros z Hz.
      apply le_trans with y; assumption.
Qed.

Lemma py_sorted_sorted (l : list A) : StronglySorted le (py_sorted lt l).
Proof.
  induction l as [| x l IH]; simpl.
  - constructor.
  - apply insert_sorted_sorted. exact IH.
Qed.
End PySortFacts.

Lemma segment_lt_true a b : segment_lt a b = true -> seg_le a b.
Proof.
  unfold segment_lt, key_lt, sort_key, seg_le. simpl.
  destruct (Qeq_bool (start a) (start b)) eqn:E; intro H.
  - apply Qeq_bool_iff in E. apply Qltb_lt in H. split.
    + rewrite E. apply Qle_refl.
    + intros _. apply Qlt_le_weak. exact H.
  - apply Qltb_lt in H. split.
    + apply Qlt_le_weak. exact H.
    + intro Heq. apply Qeq_bool_iff in Heq. congruence.
Qed.

Lemma segment_lt_false a b : segment_lt a b = false -> seg_le b a.
Proof.
  unfold segment_lt, key_lt, sort_key, seg_le. simpl.
  destruct (Qeq_bool (start a) (start b)) eqn:E; intro H.
  - apply Qeq_bool_iff in E. apply Qltb_ge in H. split.
    + rewrite E. apply Qle_refl.
    + intros _. exact H.
  - apply Qltb_ge in H. split; [exact H |].
    intro Heq. symmetry in Heq. apply Qeq_bool_iff in Heq. congruence.
Qed.

Lemma seg_le_trans a b c : seg_le a b -> seg_le b c -> seg_le a c.
Proof.
  unfold seg_le. intros [Hab Eab] [Hbc Ebc]. split.
  - apply Qle_trans with (start b); assumption.
  - intro Hac.
    assert (start a == start b) as Hab'.
    { apply Qle_antisym; [exact Hab |]. rewrite Hac. exact Hbc. }
    assert (start b == start c) as Hbc'.
    { rewrite <- Hab'. exact Hac. }
    apply Qle_trans with (end_ b); auto.
Qed.

(** C6. The output of [merge_dialogue] is sorted by [(start, end)]: every
    segment starts no later than each segment after it, and of two
    segments with equal starts the earlier one ends no later. *)
Theorem merge_dialogue_sorted :
  forall (left_segments : list TranscriptSegment) (left_speaker : string)
         (right_segments : list TranscriptSegment) (right_speaker : string),
    StronglySorted
      (fun a b =>
         start a <= start b /\ (start a == start b -> end_ a <= end_ b))
      (merge_dialogue left_segments left_speaker
         right_segments right_speaker).
Proof.
  intros L ls R rs. unfold merge_dialogue.
  apply (py_sorted_sorted segment_lt seg_le).
  - exact segment_lt_true.
  - exact segment_lt_false.
  - exact seg_le_trans.
Qed.

(** ** Speakers *)

Lemma split_speaker seg t p :
  In p (_split_segment_at_time seg t) -> speaker p = speaker seg.
Proof.
  destruct (split_cases seg t) as [-> | [-> | [w [ws [_ [_ [_ ->]]]]]]].
  - intros [<- | []]. reflexivity.
  - intros [<- | [<- | []]]; reflexivity.
  - intro H. apply in_app_or in H. destruct H as [H | H].
    + destruct (fst (partition_words (w :: ws) t)); [destruct H |].
      destruct H as [<- | []]. reflexivity.
    + destruct (snd (partition_words (w :: ws) t)); [destruct H |].
      destruct H as [<- | []]. reflexivity.
Qed.

Lemma split_stack_speaker (P : option string -> Prop) stack b :
  Forall (fun p => P (speaker p)) stack ->
  Forall (fun p => P (speaker p)) (split_stack stack b).
Proof.
  intro H. apply Forall_forall. intros p Hp.
  unfold split_stack in Hp. apply in_flat_map in Hp.
  destruct Hp as [q [Hq Hp]]. rewrite (split_speaker q b p Hp).
  exact (proj1 (Forall_forall _ _) H q Hq).
Qed.

Lemma fold_split_stack_speaker (P : option string -> Prop) bs :
  forall stack,
    Forall (fun p => P (speaker p)) stack ->
    Forall (fun p => P (speaker p)) (fold_left split_stack bs stack).
Proof.
  induction bs as [| b bs IH]; intros stack H; simpl.
  - exact H.
  - apply IH. apply split_stack_speaker. exact H.
Qed.

Lemma split_segments_speaker (P : option string -> Prop) segs bs :
  Forall (fun p => P (speaker p)) segs ->
  Forall (fun p => P (speaker p)) (_split_segments_at_boundaries segs bs).
Proof.
  intro H. unfold _split_segments_at_boundaries.
  destruct segs as [| s segs]; [exact H |].
  destruct bs as [| b bs]; [exact H |].
  apply Forall_forall. intros p Hp.
  apply filter_In in Hp. destruct Hp as [Hp _].
  apply in_flat_map in Hp. destruct Hp as [q [Hq Hp]].
  unfold split_at_all in Hp.
  assert (Forall (fun p => P (speaker p)) [q]) as Hq1.
  { constructor; [| constructor].
    exact (proj1 (Forall_forall _ _) H q Hq). }
  pose proof (fold_split_stack_speaker P
                (py_sorted Qltb (b :: bs)) [q] Hq1) as HF.
  exact (proj1 (Forall_forall _ _) HF p Hp).
Qed.

(** C7. Every segment of the output of [merge_dialogue] has its speaker
    set, to the left label or to the right label, whatever the speakers of
    the input segments were. *)
Theorem merge_dialogue_speaker :
  forall (left_segments : list TranscriptSegment) (left_speaker : string)
         (right_segments : list TranscriptSegment) (right_speaker : string),
    Forall
      (fun s => speaker s = Some left_speaker
                \/ speaker s = Some right_speaker)
      (merge_dialogue left_segments left_speaker
         right_segments right_speaker).
Proof.
  intros L ls R rs. unfold merge_dialogue.
  apply (Permutation_Forall (py_sorted_perm segment_lt _)).
  apply Forall_app. split.
  - apply (split_segments_speaker (fun o => o = Some ls \/ o = Some rs)).
    apply Forall_forall. intros s Hs. apply in_map_iff in Hs.
    destruct Hs as [s0 [<- _]]. left. reflexivity.
  - apply (split_segments_speaker (fun o => o = Some ls \/ o = Some rs)).
    apply Forall_forall. intros s Hs. apply in_map_iff in Hs.
    destruct Hs as [s0 [<- _]]. right. reflexivity.
Qed.

(** Two channels without word alignment: ["Hello"] over 0..1 is cut where
    the other speaker starts, its empty right fragment is dropped, and the
    two lines come out in order of their starts. *)
Example merge_dialogue_two_channels :
  merge_dialogue
    [mkTranscriptSegment 0.0 1.0 "Hello" None None None None] "You"
    [mkTranscriptSegment 0.5 1.5 "Hi there" None None None None] "Other"
  = [mkTranscriptSegment 0.0 0.5 "Hello" None None (Some "You") None;
     mkTranscriptSegment 0.5 1.5 "Hi there" None None (Some "Other") None].
Proof. vm_compute. reflexivity. Qed.

(** A segment of two words cut between them. *)
Example split_hello_world :
  map (fun p => (start p, end_ p, text p))
    (_split_segment_at_time
       (mkTranscriptSegment 0.0 2.0 "Hello world" None None None
          (Some [mkWordToken 0.0 1.0 "Hello " None;
                 mkWordToken 1.0 2.0 " world" None])) 1.0)
  = [(0.0, 1.0, "Hello"); (1.0, 2.0, "world")].
Proof. vm_compute. reflexivity. Qed.

(** ** Boundary-set applier *)

(** C8. [_split_segments_at_boundaries] returns its segments unchanged
    when they or the boundaries are empty; otherwise every part of its
    result has a text that is not empty once stripped, so the empty right
    fragment of a segment without alignment is dropped, as when ["Hello"]
    over 0..1 is cut at 0.5.  The function is total: no input makes it
    fail. *)
Theorem split_segments_at_boundaries_nonempty_text :
  (forall boundaries : list Q,
      _split_segments_at_boundaries [] boundaries = [])
  /\ (forall segments : list TranscriptSegment,
        _split_segments_at_boundaries segments [] = segments)
  /\ (forall (s : TranscriptSegment) (segments : list TranscriptSegment)
             (b : Q) (boundaries : list Q),
        Forall (fun p => PyStr.strip (text p) <> "")
          (_split_segments_at_boundaries (s :: segments) (b :: boundaries)))
  /\ _split_segments_at_boundaries
       [mkTranscriptSegment 0 1 "Hello" None None (Some "You") None] [0.5]
     = [mkTranscriptSegment 0 0.5 "Hello" None None (Some "You") None].
Proof.
  split; [reflexivity |].
  split; [intros [| s l]; reflexivity |].
  split; [| vm_compute; reflexivity].
  intros s segments b boundaries.
  unfold _split_segments_at_boundaries.
  apply Forall_forall. intros p Hp.
  apply filter_In in Hp. destruct Hp as [_ Hp].
  unfold has_text in Hp. intro H. rewrite H in Hp. discriminate.
Qed.

(** ** Time formatting *)

(** C9. [_fmt_time] formats 75.256 as [[01:15.26]] and -3.0 as
    [[00:00.00]], but at 0.998046875 s the fraction rounds to 100
    centiseconds, which is printed with three digits and not carried into
    the seconds. *)
Theorem fmt_time_centis_overflow :
  _fmt_time 75.256 = "[01:15.26]"
  /\ _fmt_time (-3.0) = "[00:00.00]"
  /\ _fmt_time 0.998046875 = "[00:00.100]".
Proof.
  repeat split; vm_compute; reflexivity.
Qed.

(** * Further properties *)

(** ** One split *)

Lemma split_cases_inside seg t :
  ((t <= start seg \/ end_ seg <= t)
   /\ _split_segment_at_time seg t = [seg])
  \/ (start seg < t /\ t < end_ seg
      /\ (words_of seg = []
          /\ _split_segment_at_time seg t
             = [replace_end seg t; replace_start_text seg t ""]
          \/ exists w ws,
               words seg = Some (w :: ws)
               /\ _split_segment_at_time seg t
                  = (part_if_words (left_part seg t)
                       (fst (partition_words (w :: ws) t))
                     ++ part_if_words (right_part seg t)
                          (snd (partition_words (w :: ws) t)))%list)).
Proof.
  destruct (Qle_bool t (start seg)) eqn:E1.
  { apply Qle_bool_iff in E1. left. split; [left; exact E1 |].
    apply split_outside. left. exact E1. }
  destruct (Qle_bool (end_ seg) t) eqn:E2.
  { apply Qle_bool_iff in E2. left. split; [right; exact E2 |].
    apply split_outside. right. exact E2. }
  apply Qle_bool_gt in E1, E2. right. split; [exact E1 |].
  split; [exact E2 |].
  unfold words_of.
  destruct (words seg) as [[| w ws] |] eqn:Hw.
  - left. split; [reflexivity |]. apply split_unaligned; auto.
  - right. exists w, ws. split; [reflexivity |].
    apply split_aligned; assumption.
  - left. split; [reflexivity |]. apply split_unaligned; auto.
Qed.

(** The shape of a part of a split inside the span. *)
Lemma split_inside_part seg t p :
  start seg < t -> t < end_ seg ->
  In p (_split_segment_at_time seg t) ->
  (start p = start seg /\ end_ p = t \/ start p = t /\ end_ p = end_ seg)
  /\ speaker p = speaker seg
  /\ avg_logprob p = avg_logprob seg
  /\ no_speech_prob p = no_speech_prob seg.
Proof.
  intros Hs He Hp.
  destruct (split_cases_inside seg t) as [[[H | H] _] | [_ [_ H]]].
  - exfalso. exact (Qlt_not_le _ _ Hs H).
  - exfalso. exact (Qlt_not_le _ _ He H).
  - destruct H as [[_ E] | [w [ws [_ E]]]]; rewrite E in Hp.
    + destruct Hp as [<- | [<- | []]]; simpl; auto.
    + apply in_app_or in Hp. destruct Hp as [Hp | Hp].
      * destruct (fst (partition_words (w :: ws) t)); [destruct Hp |].
        destruct Hp as [<- | []]. simpl. auto.
      * destruct (snd (partition_words (w :: ws) t)); [destruct Hp |].
        destruct Hp as [<- | []]. simpl. auto.
Qed.

Lemma piece_of_refl s : piece_of s s.
Proof.
  unfold piece_of, within. repeat split; try reflexivity; apply Qle_refl.
Qed.

Lemma piece_of_trans a b c : piece_of a b -> piece_of b c -> piece_of a c.
Proof.
  unfold piece_of, within.
  intros [[H1 H2] [H3 [H4 H5]]] [[K1 K2] [K3 [K4 K5]]].
  repeat split; try congruence.
  - apply Qle_trans with (start b); assumption.
  - apply Qle_trans with (end_ b); assumption.
Qed.

Lemma split_piece_of seg t p :
  In p (_split_segment_at_time seg t) -> piece_of seg p.
Proof.
  intro Hp.
  destruct (split_cases_inside seg t) as [[_ E] | [Hs [He _]]].
  - rewrite E in Hp. destruct Hp as [<- | []]. apply piece_of_refl.
  - destruct (split_inside_part seg t p Hs He Hp)
      as [[[E1 E2] | [E1 E2]] [H1 [H2 H3]]];
      unfold piece_of, within; rewrite E1, E2; repeat split; auto;
      try apply Qle_refl; apply Qlt_le_weak; assumption.
Qed.

Lemma split_not_cut seg t p :
  In p (_split_segment_at_time seg t) -> t <= start p \/ end_ p <= t.
Proof.
  intro Hp.
  destruct (split_cases_inside seg t) as [[H E] | [Hs [He _]]].
  - rewrite E in Hp. destruct Hp as [<- | []]. exact H.
  - destruct (split_inside_part seg t p Hs He Hp)
      as [[[_ E] | [E _]] _]; rewrite E; [right | left]; apply Qle_refl.
Qed.

Lemma not_cuts_iff t p : ~ cuts t p <-> t <= start p \/ end_ p <= t.
Proof.
  unfold cuts. split.
  - intro H. destruct (Qlt_le_dec (start p) t) as [H1 | H1]; [| left; auto].
    destruct (Qlt_le_dec t (end_ p)) as [H2 | H2]; [| right; auto].
    exfalso. apply H. split; assumption.
  - intros [H | H] [H1 H2].
    + exact (Qlt_not_le _ _ H1 H).
    + exact (Qlt_not_le _ _ H2 H).
Qed.

Lemma not_cuts_within t s p : ~ cuts t s -> within s p -> ~ cuts t p.
Proof.
  unfold cuts, within. intros H [H1 H2] [K1 K2]. apply H. split.
  - apply Qle_lt_trans with (start p); assumption.
  - apply Qlt_le_trans with (end_ p); assumption.
Qed.

Lemma flat_map_singleton {A : Type} (f : A -> list A) (l : list A) :
  (forall x, In x l -> f x = [x]) -> flat_map f l = l.
Proof.
  induction l as [| a l IH]; intro H; simpl.
  - reflexivity.
  - rewrite (H a (or_introl eq_refl)). simpl. f_equal.
    apply IH. intros x Hx. apply H. right. exact Hx.
Qed.

(** X1. Cutting twice at the same time changes nothing more: after one pass of
    the inner loop for a boundary, a second pass for the same boundary
    returns the stack as it is. *)
Theorem split_stack_idempotent :
  forall (stack : list TranscriptSegment) (b : Q),
    split_stack (split_stack stack b) b = split_stack stack b.
Proof.
  intros stack b. unfold split_stack at 1.
  apply flat_map_singleton. intros p Hp.
  unfold split_stack in Hp. apply in_flat_map in Hp.
  destruct Hp as [q [_ Hp]].
  apply split_outside. exact (split_not_cut q b p Hp).
Qed.

(** ** All boundaries *)

Lemma split_stack_not_cut stack b :
  Forall (fun p => ~ cuts b p) (split_stack stack b).
Proof.
  apply Forall_forall. intros p Hp.
  unfold split_stack in Hp. apply in_flat_map in Hp.
  destruct Hp as [q [_ Hp]].
  apply not_cuts_iff. exact (split_not_cut q b p Hp).
Qed.

Lemma split_stack_keeps_not_cut stack b t :
  Forall (fun p => ~ cuts t p) stack ->
  Forall (fun p => ~ cuts t p) (split_stack stack b).
Proof.
  intro H. apply Forall_forall. intros p Hp.
  unfold split_stack in Hp. apply in_flat_map in Hp.
  destruct Hp as [q [Hq Hp]].
  apply (not_cuts_within t q).
  - exact (proj1 (Forall_forall _ _) H q Hq).
  - exact (proj1 (split_piece_of q b p Hp)).
Qed.

Lemma fold_split_stack_not_cut bs : forall stack t,
  In t bs \/ Forall (fun p => ~ cuts t p) stack ->
  Forall (fun p => ~ cuts t p) (fold_left split_stack bs stack).
Proof.
  induction bs as [| b bs IH]; intros stack t H; simpl.
  - destruct H as [[] | H]. exact H.
  - apply IH. destruct H as [[<- | H] | H].
    + right. apply split_stack_not_cut.
    + left. exact H.
    + right. apply split_stack_keeps_not_cut. exact H.
Qed.

Lemma split_segments_no_boundary_inside_aux segs bs p b :
  In p (_split_segments_at_boundaries segs bs) -> In b bs -> ~ cuts b p.
Proof.
  intros Hp Hb.
  unfold _split_segments_at_boundaries in Hp.
  destruct segs as [| s segs]; [destruct Hp |].
  destruct bs as [| b0 bs]; [destruct Hb |].
  apply filter_In in Hp. destruct Hp as [Hp _].
  apply in_flat_map in Hp. destruct Hp as [q [_ Hp]].
  unfold split_at_all in Hp.
  assert (In b (py_sorted Qltb (b0 :: bs))) as Hb'.
  { apply (Permutation_in b (py_sorted_perm Qltb (b0 :: bs))). exact Hb. }
  pose proof (fold_split_stack_not_cut _ [q] b (or_introl Hb')) as HF.
  exact (proj1 (Forall_forall _ _) HF p Hp).
Qed.

(** X2. No part that [_split_segments_at_boundaries] returns has one of the
    boundaries strictly inside its span. *)
Theorem split_segments_no_boundary_inside :
  forall (segs : list TranscriptSegment) (bs : list Q)
         (p : TranscriptSegment) (b : Q),
    In p (_split_segments_at_boundaries segs bs) ->
    In b bs ->
    ~ (start p < b /\ b < end_ p).
Proof.
  intros segs bs p b Hp Hb.
  exact (split_segments_no_boundary_inside_aux segs bs p b Hp Hb).
Qed.

Lemma split_segments_no_boundary_inside_witness :
  ~ (start (mkTranscriptSegment 0 0.5 "Hello" None None (Some "You") None)
     < 0.5
     /\ 0.5
        < end_ (mkTranscriptSegment 0 0.5 "Hello" None None (Some "You")
                  None)).
Proof.
  apply (split_segments_no_boundary_inside
           [mkTranscriptSegment 0 1 "Hello" None None (Some "You") None]
           [0.5]).
  - vm_compute. left. reflexivity.
  - left. reflexivity.
Defined.

Lemma fold_split_stack_piece_of bs : forall stack p,
  In p (fold_left split_stack bs stack) ->
  exists q, In q stack /\ piece_of q p.
Proof.
  induction bs as [| b bs IH]; intros stack p Hp; simpl in Hp.
  - exists p. split; [exact Hp | apply piece_of_refl].
  - destruct (IH _ _ Hp) as [q [Hq Hqp]].
    unfold split_stack in Hq. apply in_flat_map in Hq.
    destruct Hq as [r [Hr Hq]]. exists r. split; [exact Hr |].
    apply piece_of_trans with q; [apply split_piece_of with b; exact Hq |].
    exact Hqp.
Qed.

(** X3. Every part that [_split_segments_at_boundaries] returns is a piece of
    one of the given segments: its span lies within the span of that
    segment, and it has that segment's speaker, [avg_logprob] and
    [no_speech_prob]. *)
Theorem split_segments_piece_of :
  forall (segs : list TranscriptSegment) (bs : list Q)
         (p : TranscriptSegment),
    In p (_split_segments_at_boundaries segs bs) ->
    exists s,
      In s segs
      /\ start s <= start p /\ end_ p <= end_ s
      /\ speaker p = speaker s
      /\ avg_logprob p = avg_logprob s
      /\ no_speech_prob p = no_speech_prob s.
Proof.
  intros segs bs p Hp.
  assert (exists s, In s segs /\ piece_of s p) as [s [Hs [[H1 H2] H3]]].
  { unfold _split_segments_at_boundaries in Hp.
    destruct segs as [| s segs]; [destruct Hp |].
    destruct bs as [| b0 bs].
    - exists p. split; [exact Hp | apply piece_of_refl].
    - apply filter_In in Hp. destruct Hp as [Hp _].
      apply in_flat_map in Hp. destruct Hp as [q [Hq Hp]].
      unfold split_at_all in Hp.
      destruct (fold_split_stack_piece_of _ _ _ Hp) as [r [[<- | []] Hr]].
      exists q. split; assumption. }
  exists s. tauto.
Qed.

Lemma split_segments_piece_of_witness :
  exists s,
    In s [mkTranscriptSegment 0 1 "Hello" None None (Some "You") None]
    /\ start s <= 0 /\ 0.5 <= end_ s
    /\ Some "You" = speaker s
    /\ None = avg_logprob s
    /\ None = no_speech_prob s.
Proof.
  apply (split_segments_piece_of
           [mkTranscriptSegment 0 1 "Hello" None None (Some "You") None]
           [0.5]
           (mkTranscriptSegment 0 0.5 "Hello" None None (Some "You") None)).
  vm_compute. left. reflexivity.
Defined.

Lemma fold_split_stack_untouched bs : forall stack,
  (forall p b, In p stack -> In b bs -> ~ cuts b p) ->
  fold_left split_stack bs stack = stack.
Proof.
  induction bs as [| b bs IH]; intros stack H; simpl.
  - reflexivity.
  - assert (split_stack stack b = stack) as ->.
    { apply flat_map_singleton. intros p Hp. apply split_outside.
      apply not_cuts_iff. apply H; [exact Hp | left; reflexivity]. }
    apply IH. intros p t Hp Ht. apply H; [exact Hp | right; exact Ht].
Qed.

(** X4. When no boundary lies strictly inside the span of any segment,
    [_split_segments_at_boundaries] cuts nothing: given at least one
    boundary, it returns the segments whose stripped text is not empty, in
    their order. *)
Theorem split_segments_nothing_to_cut :
  forall (segs : list TranscriptSegment) (b0 : Q) (bs : list Q),
    (forall s b, In s segs -> In b (b0 :: bs) ->
                 ~ (start s < b /\ b < end_ s)) ->
    _split_segments_at_boundaries segs (b0 :: bs) = filter has_text segs.
Proof.
  intros segs b0 bs H. unfold _split_segments_at_boundaries.
  destruct segs as [| s segs]; [reflexivity |].
  f_equal. apply flat_map_singleton. intros q Hq.
  unfold split_at_all. apply fold_split_stack_untouched.
  intros p b [<- | []] Hb. apply H; [exact Hq |].
  apply (Permutation_in b
           (Permutation_sym (py_sorted_perm Qltb (b0 :: bs)))).
  exact Hb.
Qed.

Lemma split_segments_nothing_to_cut_witness :
  _split_segments_at_boundaries
    [mkTranscriptSegment 0.5 1.5 "Hi there" None None (Some "Other") None]
    [0.0]
  = filter has_text
      [mkTranscriptSegment 0.5 1.5 "Hi there" None None (Some "Other") None].
Proof.
  apply (split_segments_nothing_to_cut
           [mkTranscriptSegment 0.5 1.5 "Hi there" None None (Some "Other")
              None] 0.0 []).
  intros s b [<- | []] [<- | []] [H _]. vm_compute in H. discriminate.
Defined.

(** ** Blank text and emphasis *)

Lemma existsb_append f a b :
  PyStr.existsb f (a ++ b) = PyStr.existsb f a || PyStr.existsb f b.
Proof.
  induction a as [| c a IH]; simpl.
  - reflexivity.
  - rewrite IH. apply orb_assoc.
Qed.

Lemma lstrip_nonspace s :
  PyStr.existsb nonspace (PyStr.lstrip s) = PyStr.existsb nonspace s.
Proof.
  induction s as [| c s IH]; cbn [PyStr.lstrip PyStr.existsb].
  - reflexivity.
  - destruct (PyStr.isspace c) eqn:E.
    + rewrite IH. unfold nonspace at 2. rewrite E. reflexivity.
    + reflexivity.
Qed.

Lemma rstrip_truthy s :
  PyStr.truthy (PyStr.rstrip s) = PyStr.existsb nonspace s.
Proof.
  induction s as [| c s IH]; cbn [PyStr.rstrip PyStr.existsb].
  - reflexivity.
  - rewrite <- IH. destruct (PyStr.rstrip s); cbn [PyStr.truthy].
    + unfold nonspace. destruct (PyStr.isspace c); reflexivity.
    + rewrite orb_true_r. reflexivity.
Qed.

Lemma rstrip_nonspace s :
  PyStr.existsb nonspace (PyStr.rstrip s) = PyStr.existsb nonspace s.
Proof.
  induction s as [| c s IH]; cbn [PyStr.rstrip PyStr.existsb].
  - reflexivity.
  - rewrite <- IH. destruct (PyStr.rstrip s) as [| d r].
    + unfold nonspace at 2. destruct (PyStr.isspace c) eqn:E.
      * reflexivity.
      * cbn [PyStr.existsb]. unfold nonspace. rewrite E. reflexivity.
    + reflexivity.
Qed.

Lemma strip_truthy s :
  PyStr.truthy (PyStr.strip s) = PyStr.existsb nonspace s.
Proof.
  unfold PyStr.strip. rewrite rstrip_truthy. apply lstrip_nonspace.
Qed.

Lemma strip_nonspace s :
  PyStr.existsb nonspace (PyStr.strip s) = PyStr.existsb nonspace s.
Proof.
  unfold PyStr.strip. rewrite rstrip_nonspace. apply lstrip_nonspace.
Qed.

Lemma truthy_nonspace s :
  PyStr.existsb nonspace s = true -> PyStr.truthy s = true.
Proof. destruct s; simpl; [discriminate | reflexivity]. Qed.

Lemma wordlike_nonspace c : wordlike_char c = true -> nonspace c = true.
Proof.
  destruct c as [[] [] [] [] [] [] [] []]; vm_compute; congruence.
Qed.

Lemma existsb_impl (f g : ascii -> bool) s :
  (forall c, f c = true -> g c = true) ->
  PyStr.existsb f s = true -> PyStr.existsb g s = true.
Proof.
  intro H. induction s as [| c s IH]; simpl; [discriminate |].
  intro E. apply orb_true_iff in E. apply orb_true_iff.
  destruct E as [E | E]; [left; apply H; exact E | right; apply IH; exact E].
Qed.

Lemma repl_nonspace g rest :
  PyStr.existsb nonspace (repl g ++ rest) = true.
Proof.
  unfold repl.
  match goal with
  | |- PyStr.existsb _ ((_ ++ ?x ++ _) ++ _) = true =>
      generalize x; intro inner
  end.
  cbn [append PyStr.existsb]. apply orb_true_iff. right.
  apply orb_true_iff. left. reflexivity.
Qed.

Lemma BRACKETED_sub_nonspace s :
  PyStr.existsb nonspace s = true ->
  PyStr.existsb nonspace (_BRACKETED_sub 0 s) = true.
Proof.
  induction s as [| c s IH]; intro H.
  - discriminate.
  - cbn [_BRACKETED_sub].
    destruct (_BRACKETED_match (String c s)) as [[g n] |].
    + apply repl_nonspace.
    + cbn [PyStr.existsb] in *. apply orb_true_iff in H.
      apply orb_true_iff. destruct H as [H | H]; auto.
Qed.

Lemma span_append cls s :
  s = fst (PyStr.span cls s) ++ snd (PyStr.span cls s).
Proof.
  induction s as [| c s IH]; simpl.
  - reflexivity.
  - destruct (cls c); [| reflexivity].
    destruct (PyStr.span cls s) as [p r]. simpl in *. f_equal. exact IH.
Qed.

Lemma BRACKETED_match_plain s :
  PyStr.existsb is_opening s = false -> _BRACKETED_match s = None.
Proof.
  intro H. unfold _BRACKETED_match.
  pose proof (span_append PyStr.isspace s) as E.
  destruct (PyStr.span PyStr.isspace s) as [lead s1]. simpl in E.
  destruct s1 as [| c s2]; [reflexivity |].
  rewrite E, existsb_append in H. apply orb_false_iff in H.
  destruct H as [_ H]. cbn [PyStr.existsb] in H.
  apply orb_false_iff in H. destruct H as [H _].
  unfold is_opening in H. apply orb_false_iff in H. destruct H as [H1 H2].
  rewrite H1, H2. reflexivity.
Qed.

(** X5. [_emphasize_bracketed] returns unchanged a text that holds neither an
    opening square bracket nor an opening parenthesis. *)
Theorem emphasize_bracketed_plain :
  forall s : string,
    PyStr.existsb is_opening s = false ->
    _emphasize_bracketed s = s.
Proof.
  unfold _emphasize_bracketed.
  induction s as [| c s IH]; intro H.
  - reflexivity.
  - cbn [_BRACKETED_sub]. rewrite (BRACKETED_match_plain _ H).
    f_equal. apply IH. cbn [PyStr.existsb] in H.
    apply orb_false_iff in H. tauto.
Qed.

Lemma emphasize_bracketed_plain_witness :
  _emphasize_bracketed "Hi there]) *ok*" = "Hi there]) *ok*".
Proof.
  apply (emphasize_bracketed_plain "Hi there]) *ok*"). reflexivity.
Defined.

(** The emphasis rewrite never blanks a text: a text with a character
    that is not whitespace is rewritten to one that has such a character
    too. *)
Lemma emphasize_bracketed_nonspace s :
  PyStr.existsb nonspace s = true ->
  PyStr.existsb nonspace (_emphasize_bracketed s) = true.
Proof. apply BRACKETED_sub_nonspace. Qed.

Lemma finalize_truthy raw lp wp :
  PyStr.truthy (PyStr.strip (finalize raw lp wp)) = true.
Proof.
  rewrite strip_truthy. unfold finalize.
  destruct (_should_mark_indistinct raw lp wp) eqn:E.
  - destruct (PyStr.truthy (_emphasize_bracketed raw)).
    + cbn [append PyStr.existsb]. reflexivity.
    + vm_compute. reflexivity.
  - unfold _should_mark_indistinct in E.
    destruct (PyStr.truthy raw); [| discriminate]. simpl in E.
    destruct (_WORDLIKE_search raw) eqn:Es; [| discriminate].
    assert (PyStr.existsb wordlike_char raw = true) as Hw.
    { destruct (PyStr.existsb wordlike_char raw) eqn:Ew; [reflexivity |].
      apply WORDLIKE_search_None in Ew. congruence. }
    apply (existsb_impl _ nonspace _ wordlike_nonspace) in Hw.
    exact (emphasize_bracketed_nonspace raw Hw).
Qed.

(** X6. The text that [transcribe_file] gives a segment is never blank:
    whatever the raw text and the confidence values, the result of
    [finalize] is not empty once stripped. *)
Theorem finalize_not_blank :
  forall (raw : string) (lp wp : option Q),
    PyStr.truthy (PyStr.strip (finalize raw lp wp)) = true.
Proof. exact finalize_truthy. Qed.

Lemma part_text_not_blank ws :
  PyStr.truthy (PyStr.strip (part_text ws)) = true.
Proof.
  unfold part_text.
  destruct (PyStr.truthy (PyStr.strip (PyStr.join (map word ws)))) eqn:E.
  - rewrite strip_truthy. apply emphasize_bracketed_nonspace.
    rewrite strip_nonspace. rewrite <- strip_truthy. exact E.
  - vm_compute. reflexivity.
Qed.

(** ** No word is lost *)

Lemma word_sides_token (t : Q) (w : WordToken) :
  exists w',
    (word_sides t w = ([w'], []) /\ w_end w' <= t
     \/ word_sides t w = ([], [w']) /\ t <= w_start w')
    /\ word w' = word w /\ probability w' = probability w.
Proof.
  unfold word_sides, assign_word.
  destruct (Qle_bool (w_end w) t) eqn:E1.
  { apply Qle_bool_iff in E1. exists w. auto. }
  destruct (Qle_bool t (w_start w)) eqn:E2.
  { apply Qle_bool_iff in E2. exists w. auto. }
  destruct (Qle_bool (fdiv (fadd (w_start w) (w_end w)) 2) t).
  - exists (mkWordToken (w_start w) t (word w) (probability w)).
    simpl. split; [left; split; [reflexivity | apply Qle_refl] | auto].
  - exists (mkWordToken t (w_end w) (word w) (probability w)).
    simpl. split; [right; split; [reflexivity | apply Qle_refl] | auto].
Qed.

Lemma partition_words_perm {B : Type} (f : WordToken -> B) t ws :
  (forall w w', word w' = word w -> probability w' = probability w ->
                f w' = f w) ->
  Permutation
    (map f (fst (partition_words ws t) ++ snd (partition_words ws t)))
    (map f ws).
Proof.
  intro Hf. induction ws as [| w ws IH].
  - apply perm_nil.
  - rewrite partition_words_cons.
    destruct (word_sides_token t w) as [w' [[[E _] | [E _]] [H1 H2]]];
      rewrite E; cbn [fst snd app map].
    + rewrite (Hf w w' H1 H2). apply perm_skip. exact IH.
    + rewrite <- (Hf w w' H1 H2).
      rewrite map_app. cbn [map]. apply Permutation_sym.
      apply Permutation_cons_app. apply Permutation_sym.
      rewrite <- map_app. exact IH.
Qed.

(** X7. The word loop puts on the left only tokens that end at or before the
    boundary and on the right only tokens that start at or after it, and
    the tokens of the two sides carry, between them, the texts and the
    probabilities of the words, each once. *)
Theorem partition_words_sides :
  forall (ws : list WordToken) (t : Q),
    Forall (fun w => w_end w <= t) (fst (partition_words ws t))
    /\ Forall (fun w => t <= w_start w) (snd (partition_words ws t))
    /\ Permutation
         (map (fun w => (word w, probability w))
            (fst (partition_words ws t) ++ snd (partition_words ws t)))
         (map (fun w => (word w, probability w)) ws).
Proof.
  intros ws t. split; [| split].
  - induction ws as [| w ws IH]; [constructor |].
    rewrite partition_words_cons. cbn [fst]. apply Forall_app.
    split; [| exact IH].
    destruct (word_sides_token t w) as [w' [[[E H] | [E _]] _]];
      rewrite E; cbn [fst]; [| constructor].
    constructor; [exact H | constructor].
  - induction ws as [| w ws IH]; [constructor |].
    rewrite partition_words_cons. cbn [snd]. apply Forall_app.
    split; [| exact IH].
    destruct (word_sides_token t w) as [w' [[[E _] | [E H]] _]];
      rewrite E; cbn [snd]; [constructor |].
    constructor; [exact H | constructor].
  - apply partition_words_perm. intros w w' H1 H2. congruence.
Qed.

Lemma word_texts_app a b :
  word_texts (a ++ b) = (word_texts a ++ word_texts b)%list.
Proof. unfold word_texts. apply flat_map_app. Qed.

Lemma word_texts_part_if_words mk ws :
  (forall l, words_of (mk l) = l) ->
  word_texts (part_if_words mk ws) = map word ws.
Proof.
  intro H. destruct ws as [| w ws]; [reflexivity |].
  unfold word_texts. cbn [part_if_words flat_map]. rewrite H.
  apply app_nil_r.
Qed.

Lemma split_word_texts seg t :
  Permutation (word_texts (_split_segment_at_time seg t))
    (map word (words_of seg)).
Proof.
  destruct (split_cases_inside seg t)
    as [[_ E] | [_ [_ [[Hw E] | [w [ws [Hw E]]]]]]]; rewrite E.
  - unfold word_texts. cbn [flat_map]. rewrite app_nil_r.
    apply Permutation_refl.
  - unfold word_texts, words_of in *. cbn [flat_map]. simpl.
    destruct (words seg) as [l |]; [subst l |]; apply perm_nil.
  - rewrite word_texts_app.
    rewrite !word_texts_part_if_words by reflexivity.
    unfold words_of. rewrite Hw. rewrite <- map_app.
    apply partition_words_perm. intros a b H _. exact H.
Qed.

Lemma split_stack_word_texts stack b :
  Permutation (word_texts (split_stack stack b)) (word_texts stack).
Proof.
  induction stack as [| s stack IH].
  - apply perm_nil.
  - unfold split_stack in *. cbn [flat_map]. rewrite word_texts_app.
    change (word_texts (s :: stack))
      with (map word (words_of s) ++ word_texts stack)%list.
    apply Permutation_app; [apply split_word_texts | exact IH].
Qed.

Lemma fold_split_stack_word_texts bs : forall stack,
  Permutation (word_texts (fold_left split_stack bs stack))
    (word_texts stack).
Proof.
  induction bs as [| b bs IH]; intro stack; simpl.
  - apply Permutation_refl.
  - apply perm_trans with (word_texts (split_stack stack b)).
    + apply IH.
    + apply split_stack_word_texts.
Qed.

(** A segment that the final filter drops only if it has no words. *)
Lemma split_keeps_text seg t p :
  has_text seg = true \/ words_of seg = [] ->
  In p (_split_segment_at_time seg t) ->
  has_text p = true \/ words_of p = [].
Proof.
  intros H Hp.
  destruct (split_cases_inside seg t)
    as [[_ E] | [_ [_ [[Hw E] | [w [ws [Hw E]]]]]]]; rewrite E in Hp.
  - destruct Hp as [<- | []]. exact H.
  - destruct Hp as [<- | [<- | []]].
    + exact H.
    + right. exact Hw.
  - left. apply in_app_or in Hp. destruct Hp as [Hp | Hp].
    + destruct (fst (partition_words (w :: ws) t)); [destruct Hp |].
      destruct Hp as [<- | []]. apply part_text_not_blank.
    + destruct (snd (partition_words (w :: ws) t)); [destruct Hp |].
      destruct Hp as [<- | []]. apply part_text_not_blank.
Qed.

Lemma fold_split_stack_keeps_text bs : forall stack,
  Forall (fun p => has_text p = true \/ words_of p = []) stack ->
  Forall (fun p => has_text p = true \/ words_of p = [])
    (fold_left split_stack bs stack).
Proof.
  induction bs as [| b bs IH]; intros stack H; simpl.
  - exact H.
  - apply IH. apply Forall_forall. intros p Hp.
    unfold split_stack in Hp. apply in_flat_map in Hp.
    destruct Hp as [q [Hq Hp]].
    apply (split_keeps_text q b p); [| exact Hp].
    exact (proj1 (Forall_forall _ _) H q Hq).
Qed.

Lemma word_texts_filter l :
  Forall (fun p => has_text p = true \/ words_of p = []) l ->
  word_texts (filter has_text l) = word_texts l.
Proof.
  induction l as [| p l IH]; intro H.
  - reflexivity.
  - inversion H as [| ? ? Hp Hl]; subst. cbn [filter].
    destruct (has_text p) eqn:E.
    + unfold word_texts in *. cbn [flat_map]. f_equal. apply IH. exact Hl.
    + destruct Hp as [Hp | Hp]; [discriminate |].
      rewrite (IH Hl). unfold word_texts. cbn [flat_map].
      rewrite Hp. reflexivity.
Qed.

Lemma split_segments_word_texts_aux segs bs :
  (forall s, In s segs -> words_of s <> [] ->
             PyStr.strip (text s) <> "") ->
  Permutation (word_texts (_split_segments_at_boundaries segs bs))
    (word_texts segs).
Proof.
  intros H. unfold _split_segments_at_boundaries.
  destruct segs as [| s0 segs0]; [apply perm_nil |].
  destruct bs as [| b0 bs0]; [apply Permutation_refl |].
  remember (s0 :: segs0) as segs eqn:Es. clear Es s0 segs0.
  remember (py_sorted Qltb (b0 :: bs0)) as bs eqn:Eb. clear Eb b0 bs0.
  assert (Forall (fun p => has_text p = true \/ words_of p = [])
            (flat_map (split_at_all bs) segs)) as Hk.
  { apply Forall_forall. intros p Hp. apply in_flat_map in Hp.
    destruct Hp as [q [Hq Hp]]. unfold split_at_all in Hp.
    assert (Forall (fun p => has_text p = true \/ words_of p = []) [q])
      as Hq1.
    { constructor; [| constructor].
      destruct (words_of q) as [| w ws] eqn:Ew; [right; reflexivity |].
      left. unfold has_text.
      destruct (PyStr.truthy (PyStr.strip (text q))) eqn:Et;
        [reflexivity |].
      apply truthy_false in Et. exfalso. apply (H q Hq); [| exact Et].
      rewrite Ew. discriminate. }
    exact (proj1 (Forall_forall _ _)
             (fold_split_stack_keeps_text bs [q] Hq1) p Hp). }
  rewrite (word_texts_filter _ Hk). clear Hk H.
  induction segs as [| s segs IH].
  - apply perm_nil.
  - cbn [flat_map]. rewrite word_texts_app.
    change (word_texts (s :: segs))
      with (map word (words_of s) ++ word_texts segs)%list.
    apply Permutation_app; [| exact IH].
    unfold split_at_all.
    apply perm_trans with (word_texts [s]).
    + apply fold_split_stack_word_texts.
    + unfold word_texts. cbn [flat_map]. rewrite app_nil_r.
      apply Permutation_refl.
Qed.

(** X8. When every given segment that has words has a text that is not blank,
    [_split_segments_at_boundaries] loses no word and repeats none: the
    word texts of the parts it returns are the word texts of the given
    segments, up to their order. *)
Theorem split_segments_word_texts :
  forall (segs : list TranscriptSegment) (bs : list Q),
    (forall s, In s segs -> words_of s <> [] ->
               PyStr.strip (text s) <> "") ->
    Permutation (word_texts (_split_segments_at_boundaries segs bs))
      (word_texts segs).
Proof.
  intros segs bs H. exact (split_segments_word_texts_aux segs bs H).
Qed.

Lemma split_segments_word_texts_witness :
  Permutation
    (word_texts (_split_segments_at_boundaries [seg_low] [1; 0.5]))
    (word_texts [seg_low]).
Proof.
  apply (split_segments_word_texts [seg_low] [1; 0.5]).
  intros s [<- | []] _. vm_compute. discriminate.
Defined.

(** ** Recognition adapter *)

Lemma made_from_has_text seg p : made_from seg p -> has_text p = true.
Proof.
  intros [_ [_ [_ H]]]. unfold has_text.
  destruct (words p) as [[| w0 ws] |].
  - destruct H.
  - destruct H as [_ [_ [-> _]]]. apply finalize_truthy.
  - destruct H as [_ [_ [_ ->]]]. apply finalize_truthy.
Qed.

Lemma last_cons_default {A : Type} (l : list A) : forall (a d d' : A),
  last (a :: l) d = last (a :: l) d'.
Proof.
  induction l as [| b l IH]; intros a d d'.
  - reflexivity.
  - change (last (b :: l) d = last (b :: l) d'). apply IH.
Qed.

Lemma close_words_snoc ws : forall w0 tok,
  close_words (w0 :: ws) ->
  fsub (w_start tok) (w_end (last (w0 :: ws) w0)) < SPLIT_GAP_SECONDS ->
  close_words ((w0 :: ws) ++ [tok]).
Proof.
  induction ws as [| w1 ws IH]; intros w0 tok Hc Hg.
  - simpl in *. auto.
  - cbn [app close_words] in *. destruct Hc as [H1 Hc]. split; [exact H1 |].
    apply (IH w1 tok Hc).
    change (last (w0 :: w1 :: ws) w0) with (last (w1 :: ws) w0) in Hg.
    rewrite (last_cons_default ws w1 w1 w0). exact Hg.
Qed.

Section OneRecSegment.
Variable seg : RecSegment.
Variable G : TranscriptSegment -> Prop.
Hypothesis G_made : forall p, made_from seg p -> G p.

Lemma flush_from_words_inv st :
  words_inv st -> Forall G (segments st) ->
  let st' := flush_from_words seg st in
  current_words st' = []
  /\ current_start st' = current_start st
  /\ prev_end st' = prev_end st
  /\ Forall G (segments st')
  /\ flat_map words_of (segments st')
     = (flat_map words_of (segments st) ++ current_words st)%list.
Proof.
  destruct st as [sg cw cs pe]. unfold words_inv, flush_from_words.
  cbn [current_words current_start prev_end segments].
  intros Hi HG. destruct cw as [| w0 ws].
  - cbn [current_words current_start prev_end segments].
    rewrite app_nil_r. auto.
  - destruct Hi as [-> [_ Hc]].
    cbn [current_words current_start prev_end segments].
    repeat split; try reflexivity.
    + apply Forall_app. split; [exact HG |].
      constructor; [| constructor]. apply G_made.
      unfold made_from. cbn. repeat split; auto.
    + rewrite flat_map_app. cbn [flat_map words_of words].
      rewrite app_nil_r. reflexivity.
Qed.

Lemma word_step_inv st w :
  words_inv st -> Forall G (segments st) ->
  let st' := word_step seg st w in
  words_inv st'
  /\ Forall G (segments st')
  /\ (flat_map words_of (segments st') ++ current_words st'
      = (flat_map words_of (segments st) ++ current_words st)
        ++ [token_of w])%list.
Proof.
  intros Hi HG.
  destruct (flush_from_words_inv st Hi HG) as [F1 [F2 [F3 [F4 F5]]]].
  unfold word_step.
  destruct (prev_end st) as [pe |] eqn:Epe.
  - destruct (Qle_bool SPLIT_GAP_SECONDS (fsub (rw_start w) pe)) eqn:Eg.
    + cbn [current_words current_start prev_end segments].
      rewrite F1. cbn [current_words current_start prev_end segments].
      split; [| split].
      * unfold words_inv.
        cbn [current_words current_start prev_end segments app last
             close_words w_start w_end].
        auto.
      * exact F4.
      * rewrite F5. reflexivity.
    + apply Qle_bool_gt in Eg. unfold words_inv in Hi.
      destruct (current_words st) as [| w0 ws] eqn:Ecw.
      { rewrite Epe in Hi. discriminate. }
      destruct Hi as [Hs [Hp Hc]].
      cbn [current_words current_start prev_end segments].
      rewrite Ecw. split; [| split].
      * unfold words_inv.
        cbn [current_words current_start prev_end segments].
        change ((w0 :: ws) ++ [?x])%list with (w0 :: (ws ++ [x]))%list.
        cbn beta iota. split; [exact Hs |]. split.
        -- f_equal. change (w0 :: (ws ++ [?x]))%list
             with ((w0 :: ws) ++ [x])%list.
           rewrite last_last. reflexivity.
        -- change (w0 :: (ws ++ [?x]))%list with ((w0 :: ws) ++ [x])%list.
           apply close_words_snoc; [exact Hc |].
           assert (pe = w_end (last (w0 :: ws) w0)) as Hpe by congruence.
           rewrite <- Hpe. exact Eg.
      * exact HG.
      * rewrite app_assoc. reflexivity.
  - unfold words_inv in Hi.
    destruct (current_words st) as [| w0 ws] eqn:Ecw.
    + cbn [current_words current_start prev_end segments].
      split; [| split].
      * unfold words_inv.
        cbn [current_words current_start prev_end segments app last
             close_words w_start w_end].
        auto.
      * exact HG.
      * rewrite app_nil_r. reflexivity.
    + destruct Hi as [_ [Hp _]]. rewrite Epe in Hp. discriminate.
Qed.

Lemma fold_word_step_inv ws : forall st,
  words_inv st -> Forall G (segments st) ->
  let st' := fold_left (word_step seg) ws st in
  words_inv st'
  /\ Forall G (segments st')
  /\ (flat_map words_of (segments st') ++ current_words st'
      = (flat_map words_of (segments st) ++ current_words st)
        ++ map token_of ws)%list.
Proof.
  induction ws as [| w ws IH]; intros st Hi HG; cbn [fold_left map].
  - rewrite app_nil_r. auto.
  - destruct (word_step_inv st w Hi HG) as [H1 [H2 H3]].
    destruct (IH _ H1 H2) as [K1 [K2 K3]].
    split; [exact K1 |]. split; [exact K2 |].
    cbv zeta in K3. rewrite K3, H3. rewrite <- app_assoc. reflexivity.
Qed.

Lemma transcribe_segment_inv acc :
  Forall G acc ->
  Forall G (transcribe_segment acc seg)
  /\ flat_map words_of (transcribe_segment acc seg)
     = (flat_map words_of acc ++ rec_tokens seg)%list.
Proof.
  intro HG. unfold transcribe_segment, rec_tokens.
  destruct (rs_words seg) as [[| w ws] |] eqn:Ew.
  - split.
    + apply Forall_app. split; [exact HG |]. constructor; [| constructor].
      apply G_made. unfold made_from. cbn. rewrite Ew. auto 10.
    + rewrite flat_map_app. reflexivity.
  - assert (words_inv (mkFlushState acc [] None None)) as Hi
      by reflexivity.
    destruct (fold_word_step_inv (w :: ws) _ Hi HG) as [K1 [K2 K3]].
    cbv zeta in K1, K2, K3.
    destruct (flush_from_words_inv _ K1 K2) as [_ [_ [_ [F4 F5]]]].
    cbv zeta in F4, F5. split; [exact F4 |].
    rewrite F5, K3. cbn [segments current_words]. rewrite app_nil_r.
    reflexivity.
  - split.
    + apply Forall_app. split; [exact HG |]. constructor; [| constructor].
      apply G_made. unfold made_from. cbn. rewrite Ew. auto 10.
    + rewrite flat_map_app. cbn. rewrite !app_nil_r. reflexivity.
Qed.
End OneRecSegment.

Lemma fold_transcribe_segment_inv (all : list RecSegment) segs :
  forall acc,
    (forall s, In s segs -> In s all) ->
    Forall (fun p => exists s, In s all /\ made_from s p) acc ->
    Forall (fun p => exists s, In s all /\ made_from s p)
      (fold_left transcribe_segment segs acc)
    /\ flat_map words_of (fold_left transcribe_segment segs acc)
       = (flat_map words_of acc ++ flat_map rec_tokens segs)%list.
Proof.
  induction segs as [| s segs IH]; intros acc Hin HG; cbn [fold_left flat_map].
  - rewrite app_nil_r. auto.
  - assert (forall p, made_from s p -> exists s0, In s0 all /\ made_from s0 p)
      as Hm.
    { intros p Hp. exists s. split; [apply Hin; left; reflexivity | exact Hp]. }
    destruct (transcribe_segment_inv s _ Hm acc HG) as [H1 H2].
    destruct (IH (transcribe_segment acc s)
                (fun x Hx => Hin x (or_intror Hx)) H1) as [K1 K2].
    split; [exact K1 |]. rewrite K2, H2. rewrite app_assoc. reflexivity.
Qed.

Lemma filter_all {A : Type} (f : A -> bool) (l : list A) :
  Forall (fun x => f x = true) l -> filter f l = l.
Proof.
  induction 1 as [| x l Hx _ IH]; cbn [filter].
  - reflexivity.
  - rewrite Hx, IH. reflexivity.
Qed.

Lemma transcribe_file_unfiltered segs :
  transcribe_file segs = fold_left transcribe_segment segs [].
Proof.
  destruct (fold_transcribe_segment_inv segs segs [] (fun s H => H)
              (Forall_nil _)) as [H _].
  unfold transcribe_file. apply filter_all.
  revert H. apply Forall_impl. intros p [s [_ Hp]].
  exact (made_from_has_text s p Hp).
Qed.

Lemma word_step_grows seg st w :
  (length (segments st) <= length (segments (word_step seg st w)))%nat
  /\ current_words (word_step seg st w) <> [].
Proof.
  unfold word_step, flush_from_words. destruct st as [sg cw cs pe].
  cbn [current_words current_start prev_end segments].
  assert (forall (l : list WordToken) x, (l ++ [x])%list <> []) as Hne.
  { intros l x H. apply app_eq_nil in H. destruct H as [_ H].
    discriminate. }
  destruct pe as [pe |];
    [destruct (Qle_bool SPLIT_GAP_SECONDS (fsub (rw_start w) pe)) |];
    destruct cw as [| c0 cw];
    cbn [current_words current_start prev_end segments];
    try rewrite length_app; cbn [length];
    (split; [lia | apply Hne]).
Qed.

Lemma fold_word_step_grows seg ws : forall st,
  (length (segments st)
   <= length (segments (fold_left (word_step seg) ws st)))%nat
  /\ (ws <> [] -> current_words (fold_left (word_step seg) ws st) <> []).
Proof.
  induction ws as [| w ws IH]; intro st; cbn [fold_left].
  - split; [lia | congruence].
  - destruct (word_step_grows seg st w) as [H1 H2].
    destruct (IH (word_step seg st w)) as [K1 K2].
    split; [lia |]. intros _. destruct ws as [| w' ws].
    + exact H2.
    + apply K2. discriminate.
Qed.

Lemma transcribe_segment_grows acc seg :
  (length acc + 1 <= length (transcribe_segment acc seg))%nat.
Proof.
  unfold transcribe_segment.
  destruct (rs_words seg) as [[| w ws] |];
    try (rewrite length_app; simpl; lia).
  destruct (fold_word_step_grows seg (w :: ws)
              (mkFlushState acc [] None None)) as [H1 H2].
  cbn [segments] in H1. unfold flush_from_words.
  destruct (current_words
              (fold_left (word_step seg) (w :: ws)
                 (mkFlushState acc [] None None))) as [| c0 cw].
  - exfalso. apply H2; [discriminate | reflexivity].
  - cbn [segments]. rewrite length_app. cbn [length]. lia.
Qed.

Lemma fold_transcribe_segment_grows segs : forall acc,
  (length acc + length segs
   <= length (fold_left transcribe_segment segs acc))%nat.
Proof.
  induction segs as [| s segs IH]; intro acc; cbn [fold_left length].
  - lia.
  - pose proof (IH (transcribe_segment acc s)).
    pose proof (transcribe_segment_grows acc s). lia.
Qed.

(** X9. The filter that ends [transcribe_file] removes nothing: every segment
    the loop creates has a text that is not blank, so the result is the
    list the loop built, and it has at least one segment for each segment
    of the recognizer. *)
Theorem transcribe_file_keeps_all :
  forall seg_iter : list RecSegment,
    transcribe_file seg_iter = fold_left transcribe_segment seg_iter []
    /\ (length seg_iter <= length (transcribe_file seg_iter))%nat.
Proof.
  intro segs. split; [apply transcribe_file_unfiltered |].
  rewrite transcribe_file_unfiltered.
  exact (fold_transcribe_segment_grows segs []).
Qed.

(** X10. Every segment [transcribe_file] returns is made from one of the
    recognizer's segments: as a whole when that segment has no words, and
    otherwise from a run of words, spanning from the start of the first to
    the end of the last, with the text finalized under the mean word
    probability as a double, and with each word starting less than 0.40 s
    after the end of the one before, as the subtraction of doubles gives
    it. *)
Theorem transcribe_file_made_from :
  forall (seg_iter : list RecSegment) (p : TranscriptSegment),
    In p (transcribe_file seg_iter) ->
    exists seg, In seg seg_iter /\ made_from seg p.
Proof.
  intros segs p Hp. unfold transcribe_file in Hp.
  apply filter_In in Hp. destruct Hp as [Hp _].
  destruct (fold_transcribe_segment_inv segs segs [] (fun s H => H)
              (Forall_nil _)) as [H _].
  exact (proj1 (Forall_forall _ _) H p Hp).
Qed.

(** X11. [transcribe_file] keeps every word of the recognizer, once and in
    order: the words of the segments it returns, put end to end, are the
    words of the recognizer's segments. *)
Theorem transcribe_file_words :
  forall seg_iter : list RecSegment,
    flat_map words_of (transcribe_file seg_iter)
    = flat_map rec_tokens seg_iter.
Proof.
  intro segs.
  rewrite transcribe_file_unfiltered.
  destruct (fold_transcribe_segment_inv segs segs [] (fun s H => H)
              (Forall_nil _)) as [_ H].
  exact H.
Qed.

Lemma transcribe_file_made_from_witness :
  exists seg,
    In seg [mkRecSegment 0 1 " Hello there" None None None]
    /\ made_from seg
         (mkTranscriptSegment 0 1 "Hello there" None None None None).
Proof.
  apply (transcribe_file_made_from
           [mkRecSegment 0 1 " Hello there" None None None]).
  vm_compute. left. reflexivity.
Defined.

(** A recognizer segment of three words with a pause before the last. *)
Example transcribe_file_runs :
  map (fun p => (start p, end_ p, text p))
    (transcribe_file
       [mkRecSegment 0 2.5 " Hello there Bye" (Some (-0.2)) (Some 0.01)
          (Some [mkRecWord 0 0.5 " Hello" (Some 0.9);
                 mkRecWord 0.6 1.0 " there" (Some 0.8);
                 mkRecWord 2.0 2.5 " Bye" (Some 0.3)])])
  = [(0, 1.0, "Hello there"); (2.0, 2.5, "*Bye*")].
Proof. vm_compute. reflexivity. Qed.

(** Two words of probabilities 0.3 and 0.5: their mean rounds to the
    double 0.4, which is not below the threshold, so the text is not
    marked, although the exact mean of the two doubles is below 0.4. *)
Example transcribe_file_rounded_mean :
  map text
    (transcribe_file
       [mkRecSegment 0 1 " hello you" (Some (-0.2)) None
          (Some [mkRecWord 0 (fl 0.1) " hello" (Some (fl 0.3));
                 mkRecWord (fl 0.2) (fl 0.5) " you" (Some (fl 0.5))])])
  = ["hello you"]
  /\ (fl 0.3 + fl 0.5) / 2 < 0.40.
Proof. split; vm_compute; reflexivity. Qed.

(** A word that ends at 0.1 and the next that starts at 0.5: the
    difference of the two doubles rounds to the double 0.4, which reaches
    the split gap, so the words go to two segments, although the exact
    difference is below 0.4. *)
Example transcribe_file_rounded_gap :
  map text
    (transcribe_file
       [mkRecSegment 0 1 " hello you" (Some (-0.2)) None
          (Some [mkRecWord 0 (fl 0.1) " hello" None;
                 mkRecWord (fl 0.5) (fl 0.9) " you" None])])
  = ["hello"; "you"]
  /\ fl 0.5 - fl 0.1 < 0.40.
Proof. split; vm_compute; reflexivity. Qed.

(** ** Merging *)

Section PySortStable.
Context {A : Type} (lt : A -> A -> bool) (same : A -> bool).
Hypothesis same_not_lt :
  forall a b, same a = true -> same b = true -> lt a b = false.

Lemma insert_sorted_stable (x : A) (l : list A) :
  filter same (insert_sorted lt x l) = filter same (x :: l).
Proof.
  induction l as [| y l IH]; [reflexivity |].
  cbn [insert_sorted]. destruct (lt y x) eqn:E; [| reflexivity].
  cbn [filter] in *. rewrite IH.
  destruct (same y) eqn:Ey; [| reflexivity].
  destruct (same x) eqn:Ex; [| reflexivity].
  rewrite (same_not_lt y x Ey Ex) in E. discriminate.
Qed.

Lemma py_sorted_stable (l : list A) :
  filter same (py_sorted lt l) = filter same l.
Proof.
  induction l as [| x l IH]; [reflexivity |].
  cbn [py_sorted]. rewrite insert_sorted_stable.
  cbn [filter]. rewrite IH. reflexivity.
Qed.
End PySortStable.

Lemma same_key_not_lt k a b :
  same_key k a = true -> same_key k b = true -> segment_lt a b = false.
Proof.
  unfold same_key, segment_lt, key_lt, sort_key. cbn [fst snd].
  intros Ha Hb. apply andb_true_iff in Ha, Hb.
  destruct Ha as [Ha1 Ha2], Hb as [Hb1 Hb2].
  apply Qeq_bool_iff in Ha1, Ha2, Hb1, Hb2.
  assert (Qeq_bool (start a) (start b) = true) as ->.
  { apply Qeq_bool_iff. rewrite <- Ha1, <- Hb1. reflexivity. }
  apply Qltb_ge. rewrite <- Ha2, <- Hb2. apply Qle_refl.
Qed.

Lemma merge_dialogue_unfold L ls R rs :
  merge_dialogue L ls R rs
  = py_sorted segment_lt
      (_split_segments_at_boundaries (labelled ls L)
         (map start (labelled rs R))
       ++ _split_segments_at_boundaries (labelled rs R)
            (map start (labelled ls L)))%list.
Proof. reflexivity. Qed.

Lemma labelled_start sp segs : map start (labelled sp segs) = map start segs.
Proof.
  unfold labelled. rewrite map_map. apply map_ext. reflexivity.
Qed.

(** X12. The final sort of [merge_dialogue] is stable: among the segments that
    share a start and an end, those of the left channel come before those
    of the right channel, and each channel's keep the order they had after
    splitting. *)
Theorem merge_dialogue_stable :
  forall (L : list TranscriptSegment) (ls : string)
         (R : list TranscriptSegment) (rs : string)
         (k : TranscriptSegment),
    filter (same_key k) (merge_dialogue L ls R rs)
    = (filter (same_key k)
         (_split_segments_at_boundaries (labelled ls L) (map start R))
       ++ filter (same_key k)
            (_split_segments_at_boundaries (labelled rs R) (map start L)))%list.
Proof.
  intros L ls R rs k. rewrite merge_dialogue_unfold.
  rewrite (py_sorted_stable segment_lt (same_key k) (same_key_not_lt k)).
  rewrite filter_app, !labelled_start. reflexivity.
Qed.

Lemma split_segments_no_boundaries segs :
  _split_segments_at_boundaries segs [] = segs.
Proof. destruct segs; reflexivity. Qed.

(** X13. When the other channel has no segment, [merge_dialogue] cuts nothing
    and drops nothing, not even a segment with a blank text: its result is
    the given channel, labelled, in sorted order. *)
Theorem merge_dialogue_one_channel :
  forall (segs : list TranscriptSegment) (ls rs : string),
    Permutation (merge_dialogue segs ls [] rs) (labelled ls segs)
    /\ Permutation (merge_dialogue [] ls segs rs) (labelled rs segs).
Proof.
  intros segs ls rs. rewrite !merge_dialogue_unfold. split.
  - apply Permutation_sym.
    eapply perm_trans; [| apply py_sorted_perm].
    cbn [labelled map]. rewrite split_segments_no_boundaries.
    cbn [_split_segments_at_boundaries]. rewrite app_nil_r.
    apply Permutation_refl.
  - apply Permutation_sym.
    eapply perm_trans; [| apply py_sorted_perm].
    cbn [labelled map]. rewrite split_segments_no_boundaries.
    cbn [_split_segments_at_boundaries app].
    apply Permutation_refl.
Qed.

Lemma merge_dialogue_In L ls R rs p :
  In p (merge_dialogue L ls R rs) <->
  In p (_split_segments_at_boundaries (labelled ls L) (map start R))
  \/ In p (_split_segments_at_boundaries (labelled rs R) (map start L)).
Proof.
  rewrite merge_dialogue_unfold, !labelled_start. rewrite <- in_app_iff.
  split; apply Permutation_in.
  - apply Permutation_sym. apply py_sorted_perm.
  - apply py_sorted_perm.
Qed.

Lemma split_segments_labelled sp segs bs p :
  In p (_split_segments_at_boundaries (labelled sp segs) bs) ->
  speaker p = Some sp.
Proof.
  intro Hp.
  pose proof (split_segments_speaker (fun o => o = Some sp)
                (labelled sp segs) bs) as H.
  assert (Forall (fun q => speaker q = Some sp) (labelled sp segs)) as Hl.
  { apply Forall_forall. intros q Hq. unfold labelled in Hq.
    apply in_map_iff in Hq. destruct Hq as [q0 [<- _]]. reflexivity. }
  exact (proj1 (Forall_forall _ _) (H Hl) p Hp).
Qed.

(** X14. With two different labels, no line of the merged dialogue runs across
    a point where the other speaker starts: a segment labelled with the
    left speaker has the start of no right segment strictly inside its
    span, and a segment labelled with the right speaker has the start of
    no left segment strictly inside its span. *)
Theorem merge_dialogue_no_turn_inside :
  forall (L : list TranscriptSegment) (ls : string)
         (R : list TranscriptSegment) (rs : string)
         (p : TranscriptSegment),
    ls <> rs ->
    In p (merge_dialogue L ls R rs) ->
    (speaker p = Some ls ->
     forall r, In r R -> ~ (start p < start r /\ start r < end_ p))
    /\ (speaker p = Some rs ->
        forall l, In l L -> ~ (start p < start l /\ start l < end_ p)).
Proof.
  intros L ls R rs p Hne Hp. apply merge_dialogue_In in Hp.
  split; intros Hsp x Hx.
  - destruct Hp as [Hp | Hp].
    + apply (split_segments_no_boundary_inside_aux _ _ p (start x) Hp).
      apply in_map. exact Hx.
    + apply split_segments_labelled in Hp. congruence.
  - destruct Hp as [Hp | Hp].
    + apply split_segments_labelled in Hp. congruence.
    + apply (split_segments_no_boundary_inside_aux _ _ p (start x) Hp).
      apply in_map. exact Hx.
Qed.

Lemma merge_dialogue_no_turn_inside_witness :
  (Some "You" = Some "You" ->
   forall r,
     In r [mkTranscriptSegment 0.5 1.5 "Hi there" None None None None] ->
     ~ (0 < start r /\ start r < 0.5))
  /\ (Some "You" = Some "Other" ->
      forall l,
        In l [mkTranscriptSegment 0 1 "Hello" None None None None] ->
        ~ (0 < start l /\ start l < 0.5)).
Proof.
  apply (merge_dialogue_no_turn_inside
           [mkTranscriptSegment 0 1 "Hello" None None None None] "You"
           [mkTranscriptSegment 0.5 1.5 "Hi there" None None None None]
           "Other"
           (mkTranscriptSegment 0 0.5 "Hello" None None (Some "You") None)).
  - discriminate.
  - vm_compute. left. reflexivity.
Defined.

Lemma sub_span_refl s : sub_span s s.
Proof. split; [apply piece_of_refl | auto]. Qed.

Lemma sub_span_trans a b c : sub_span a b -> sub_span b c -> sub_span a c.
Proof.
  intros [H1 H2] [K1 K2]. split; [apply piece_of_trans with b | ]; auto.
Qed.

Lemma split_sub_span seg t p :
  In p (_split_segment_at_time seg t) -> sub_span seg p.
Proof.
  intro Hp. split; [apply split_piece_of with t; exact Hp |].
  intro Hv.
  destruct (split_cases_inside seg t) as [[_ E] | [Hs [He _]]].
  - rewrite E in Hp. destruct Hp as [<- | []]. exact Hv.
  - destruct (split_inside_part seg t p Hs He Hp)
      as [[[E1 E2] | [E1 E2]] _]; rewrite E1, E2;
      apply Qlt_le_weak; assumption.
Qed.

Lemma fold_split_stack_sub_span bs : forall stack p,
  In p (fold_left split_stack bs stack) ->
  exists q, In q stack /\ sub_span q p.
Proof.
  induction bs as [| b bs IH]; intros stack p Hp; simpl in Hp.
  - exists p. split; [exact Hp | apply sub_span_refl].
  - destruct (IH _ _ Hp) as [q [Hq Hqp]].
    unfold split_stack in Hq. apply in_flat_map in Hq.
    destruct Hq as [r [Hr Hq]]. exists r. split; [exact Hr |].
    apply sub_span_trans with q; [apply split_sub_span with b; exact Hq |].
    exact Hqp.
Qed.

Lemma split_segments_sub_span segs bs p :
  In p (_split_segments_at_boundaries segs bs) ->
  exists s, In s segs /\ sub_span s p.
Proof.
  intro Hp. unfold _split_segments_at_boundaries in Hp.
  destruct segs as [| s segs]; [destruct Hp |].
  destruct bs as [| b0 bs].
  - exists p. split; [exact Hp | apply sub_span_refl].
  - apply filter_In in Hp. destruct Hp as [Hp _].
    apply in_flat_map in Hp. destruct Hp as [q [Hq Hp]].
    unfold split_at_all in Hp.
    destruct (fold_split_stack_sub_span _ _ _ Hp) as [r [[<- | []] Hr]].
    exists q. split; assumption.
Qed.

Lemma labelled_sub_span sp segs bs p :
  In p (_split_segments_at_boundaries (labelled sp segs) bs) ->
  exists src,
    In src segs /\ speaker p = Some sp
    /\ start src <= start p /\ end_ p <= end_ src
    /\ (start src <= end_ src -> start p <= end_ p)
    /\ avg_logprob p = avg_logprob src
    /\ no_speech_prob p = no_speech_prob src.
Proof.
  intro Hp. pose proof (split_segments_labelled sp segs bs p Hp) as Hsp.
  destruct (split_segments_sub_span _ _ _ Hp)
    as [q [Hq [[[H1 H2] [_ [H4 H5]]] H6]]].
  unfold labelled in Hq. apply in_map_iff in Hq.
  destruct Hq as [src [<- Hsrc]]. exists src.
  cbn [replace_speaker start end_ avg_logprob no_speech_prob] in *.
  auto 10.
Qed.

(** X15. Every segment of the merged dialogue comes from a segment of the
    channel whose label it carries: its span lies within the span of that
    segment, it has that segment's [avg_logprob] and [no_speech_prob], and
    it starts no later than it ends if that segment does. *)
Theorem merge_dialogue_spans :
  forall (L : list TranscriptSegment) (ls : string)
         (R : list TranscriptSegment) (rs : string)
         (p : TranscriptSegment),
    In p (merge_dialogue L ls R rs) ->
    exists src,
      (In src L /\ speaker p = Some ls \/ In src R /\ speaker p = Some rs)
      /\ start src <= start p /\ end_ p <= end_ src
      /\ (start src <= end_ src -> start p <= end_ p)
      /\ avg_logprob p = avg_logprob src
      /\ no_speech_prob p = no_speech_prob src.
Proof.
  intros L ls R rs p Hp. apply merge_dialogue_In in Hp.
  destruct Hp as [Hp | Hp];
    destruct (labelled_sub_span _ _ _ _ Hp) as [src [H1 [H2 H3]]];
    exists src; split; auto.
Qed.

Lemma merge_dialogue_spans_witness :
  exists src,
    (In src [mkTranscriptSegment 0 1 "Hello" None None None None]
     /\ Some "You" = Some "You"
     \/ In src [mkTranscriptSegment 0.5 1.5 "Hi there" None None None None]
        /\ Some "You" = Some "Other")
    /\ start src <= 0 /\ 0.5 <= end_ src
    /\ (start src <= end_ src -> 0 <= 0.5)
    /\ None = avg_logprob src
    /\ None = no_speech_prob src.
Proof.
  apply (merge_dialogue_spans
           [mkTranscriptSegment 0 1 "Hello" None None None None] "You"
           [mkTranscriptSegment 0.5 1.5 "Hi there" None None None None]
           "Other"
           (mkTranscriptSegment 0 0.5 "Hello" None None (Some "You") None)).
  vm_compute. left. reflexivity.
Defined.

(** ** From the recognizer to the dialogue *)

Lemma word_texts_flat l : word_texts l = map word (flat_map words_of l).
Proof.
  unfold word_texts. induction l as [| p l IH]; cbn [flat_map].
  - reflexivity.
  - rewrite map_app, IH. reflexivity.
Qed.

Lemma word_texts_labelled sp l : word_texts (labelled sp l) = word_texts l.
Proof.
  unfold word_texts, labelled. induction l as [| p l IH]; cbn [map flat_map].
  - reflexivity.
  - rewrite IH. reflexivity.
Qed.

Lemma labelled_transcribed_text sp segs s :
  In s (labelled sp (transcribe_file segs)) ->
  words_of s <> [] -> PyStr.strip (text s) <> "".
Proof.
  intros Hs _ E. unfold labelled in Hs. apply in_map_iff in Hs.
  destruct Hs as [q [<- Hq]]. unfold transcribe_file in Hq.
  apply filter_In in Hq. destruct Hq as [_ Hq]. unfold has_text in Hq.
  cbn [replace_speaker text] in E. rewrite E in Hq. discriminate.
Qed.

(** X16. Transcribing two channels and merging them loses no word of the
    recognizer and repeats none: the word texts of the merged dialogue are
    those of the recognizer's words of the two channels, up to their
    order. *)
Theorem merge_transcribed_words :
  forall (left_iter right_iter : list RecSegment) (ls rs : string),
    Permutation
      (word_texts
         (merge_dialogue (transcribe_file left_iter) ls
            (transcribe_file right_iter) rs))
      (map word
         (flat_map rec_tokens left_iter ++ flat_map rec_tokens right_iter)).
Proof.
  intros A B ls rs. rewrite merge_dialogue_unfold.
  eapply perm_trans.
  { unfold word_texts. apply Permutation_flat_map.
    apply Permutation_sym. apply py_sorted_perm. }
  fold (word_texts
          (_split_segments_at_boundaries (labelled ls (transcribe_file A))
             (map start (labelled rs (transcribe_file B)))
           ++ _split_segments_at_boundaries
                (labelled rs (transcribe_file B))
                (map start (labelled ls (transcribe_file A))))).
  rewrite word_texts_app, map_app.
  apply Permutation_app.
  - eapply perm_trans.
    + apply split_segments_word_texts_aux.
      apply labelled_transcribed_text.
    + rewrite word_texts_labelled, word_texts_flat.
      rewrite transcribe_file_unfiltered.
      destruct (fold_transcribe_segment_inv A A [] (fun s H => H)
                  (Forall_nil _)) as [_ H].
      rewrite H. apply Permutation_refl.
  - eapply perm_trans.
    + apply split_segments_word_texts_aux.
      apply labelled_transcribed_text.
    + rewrite word_texts_labelled, word_texts_flat.
      rewrite transcribe_file_unfiltered.
      destruct (fold_transcribe_segment_inv B B [] (fun s H => H)
                  (Forall_nil _)) as [_ H].
      rewrite H. apply Permutation_refl.
Qed.

(** ** Time formatting *)

(** The doubles nearest to 0.995 and to 0.005: the first lies below
    0.995 and its hundredfold rounds to 99.5, which [round] takes to 100;
    the second lies above 0.005 and its hundredfold rounds to 0.5, which
    [round] takes to 0.  A time beyond the precision of a second follows
    the same arithmetic. *)
Example fmt_time_rounded :
  _fmt_time (fl 0.995) = "[00:00.100]"
  /\ fl 0.995 < 0.995
  /\ _fmt_time (fl 0.005) = "[00:00.00]"
  /\ 0.005 < fl 0.005
  /\ _fmt_time (fl 1e22) = "[166666666666666655744:00.00]".
Proof. repeat split; vm_compute; reflexivity. Qed.

(** X18. A time that is zero or negative is printed as zero. *)
Theorem fmt_time_clamps :
  forall seconds : Q, seconds <= 0 -> _fmt_time seconds = "[00:00.00]".
Proof.
  intros [[| n | n] d] Hle.
  - vm_compute. reflexivity.
  - exfalso. revert Hle. unfold Qle. simpl. lia.
  - vm_compute. reflexivity.
Qed.

Lemma fmt_time_clamps_witness : _fmt_time (-3.0) = "[00:00.00]".
Proof.
  apply (fmt_time_clamps (-3.0)). vm_compute. discriminate.
Defined.

(** ** Writer *)

Lemma fold_append_lines (segs : list TranscriptSegment) :
  forall lines : list string,
    fold_left (fun lines seg => (lines ++ [lrc_line seg])%list) segs lines
    = (lines ++ map lrc_line segs)%list.
Proof.
  induction segs as [| s segs IH]; intro lines; cbn [fold_left map].
  - rewrite app_nil_r. reflexivity.
  - rewrite IH, <- app_assoc. reflexivity.
Qed.

Lemma str_or_label sp d : sp <> "" -> str_or (Some sp) d = sp.
Proof.
  intro H. unfold str_or. destruct sp; [congruence | reflexivity].
Qed.

(** X19. Written after [merge_dialogue] with two labels that are not empty,
    the lines of the file are the header lines, at most two, followed by
    one line for each segment of the dialogue, in order, and each of these
    lines names one of the two labels, never the default speaker. *)
Theorem lrc_lines_of_dialogue :
  forall (L : list TranscriptSegment) (ls : string)
         (R : list TranscriptSegment) (rs : string)
         (title artists : option string),
    ls <> "" -> rs <> "" ->
    exists header,
      (length header <= 2)%nat
      /\ lrc_lines (merge_dialogue L ls R rs) title artists
         = (header ++ map lrc_line (merge_dialogue L ls R rs))%list
      /\ Forall
           (fun p =>
              exists sp,
                (sp = ls \/ sp = rs)
                /\ lrc_line p
                   = _fmt_time (start p) ++ " " ++ sp ++ ": "
                       ++ PyStr.strip (text p))
           (merge_dialogue L ls R rs).
Proof.
  intros L ls R rs title artists Hl Hr.
  unfold lrc_lines. cbv zeta.
  match goal with
  | |- exists header, _ /\ fold_left _ _ ?h = _ /\ _ => exists h
  end.
  split; [| split].
  - destruct title as [t |]; [destruct (PyStr.truthy t) |];
      (destruct artists as [a |]; [destruct (PyStr.truthy a) |]);
      simpl; lia.
  - apply fold_append_lines.
  - apply Forall_forall. intros p Hp. apply merge_dialogue_In in Hp.
    unfold lrc_line.
    destruct Hp as [Hp | Hp]; apply split_segments_labelled in Hp;
      rewrite Hp.
    + exists ls. split; [left; reflexivity |].
      rewrite (str_or_label ls _ Hl). reflexivity.
    + exists rs. split; [right; reflexivity |].
      rewrite (str_or_label rs _ Hr). reflexivity.
Qed.

Lemma lrc_lines_of_dialogue_witness :
  exists header,
    (length header <= 2)%nat
    /\ lrc_lines
         (merge_dialogue
            [mkTranscriptSegment 0 1 "Hello" None None None None] "You"
            [mkTranscriptSegment 0.5 1.5 "Hi there" None None None None]
            "Other")
         (Some "call") None
       = (header
            ++ map lrc_line
                 (merge_dialogue
                    [mkTranscriptSegment 0 1 "Hello" None None None None]
                    "You"
                    [mkTranscriptSegment 0.5 1.5 "Hi there" None None None
                       None]
                    "Other"))%list
    /\ Forall
         (fun p =>
            exists sp,
              (sp = "You" \/ sp = "Other")
              /\ lrc_line p
                 = _fmt_time (start p) ++ " " ++ sp ++ ": "
                     ++ PyStr.strip (text p))
         (merge_dialogue
            [mkTranscriptSegment 0 1 "Hello" None None None None] "You"
            [mkTranscriptSegment 0.5 1.5 "Hi there" None None None None]
            "Other").
Proof.
  apply (lrc_lines_of_dialogue
           [mkTranscriptSegment 0 1 "Hello" None None None None] "You"
           [mkTranscriptSegment 0.5 1.5 "Hi there" None None None None]
           "Other" (Some "call") None); discriminate.
Defined.

(** The file written for the two channels of the example. *)
Example write_lrc_two_channels :
  write_lrc
    (merge_dialogue
       [mkTranscriptSegment 0 1 "Hello" None None None None] "You"
       [mkTranscriptSegment 0.5 1.5 "Hi there" None None None None] "Other")
    (Some "call") (Some "You & Other")
  = "[ti:call]" ++ String "010" "[ar:You & Other]"
      ++ String "010" "[00:00.00] You: Hello"
      ++ String "010" "[00:00.50] Other: Hi there" ++ String "010" "".
Proof. vm_compute. reflexivity. Qed.
